(** * Page replacement simulator (Page_Replacement.py)

    A shallow embedding of [PageReplacementSimulator] and of [main], and the
    properties of the four replacement policies (FIFO, LRU, LFU, Optimal).

    Conventions of the embedding:
    - page identifiers and the frame count are Python integers: [Z];
    - counters that start at 0 and are only incremented, and lengths: [nat];
    - the simulator object is a record; its methods are computations in a
      state-and-exception monad over that record, so that a raised exception
      leaves the fields as they were at the point of the raise;
    - the f-strings appended to [self.log] are kept structured ([LogEntry]);
    - [collections.deque] and the keys of [collections.OrderedDict] are lists
      in container order; the plain [dict] of [lfu] is an association list in
      insertion order; [collections.Counter] is a [gmap] read with default 0;
    - the built-in [set] of [optimal] has an iteration order that the language
      leaves to the implementation: it is an interface ([PySet]) and every
      result about [optimal] holds for each lawful implementation. *)

From stdpp Require Import base list gmap strings sorting.
From Stdlib Require Import QArith.

#[local] Set Warnings "-clear-no-such-hyp".

Local Open Scope Z_scope.

(** ** Exceptions, results, log entries *)

Inductive Exception : Type :=
  | IndexError         (* deque.popleft() on an empty deque *)
  | KeyError           (* OrderedDict.popitem() on an empty dictionary *)
  | ValueError         (* min() / max() of an empty iterable *)
  | ZeroDivisionError. (* int / int with a zero divisor *)

Inductive Result (A : Type) : Type :=
  | Ok (a : A)
  | Raise (e : Exception).
Arguments Ok {A} a.
Arguments Raise {A} e.

(** [Replaced removed page] is the entry "Page {removed} replaced by {page}";
    [MemoryState state] is the entry "Memory State: {list(state)}". *)
Inductive LogEntry : Type :=
  | Replaced (removed page : Z)
  | MemoryState (state : list Z).

Definition is_replaced (e : LogEntry) : bool :=
  match e with Replaced _ _ => true | MemoryState _ => false end.

(** ** The simulator object *)

Record Simulator : Type := mkSimulator {
  frames : Z;
  reference_string : list Z;
  page_faults : nat;
  page_hits : nat;
  log : list LogEntry
}.

(** [PageReplacementSimulator.__init__] *)
Definition init (frames : Z) (reference_string : list Z) : Simulator :=
  mkSimulator frames reference_string 0 0 [].

(** ** Computations with state and exceptions *)

(** A computation over a mutable state [St] that returns a value or raises;
    the state it leaves behind is kept in both cases. *)
Definition SE (St A : Type) : Type := St → Result A * St.

Definition ret {St A} (a : A) : SE St A := λ st, (Ok a, st).

Definition bind {St A B} (m : SE St A) (k : A → SE St B) : SE St B :=
  λ st,
    match m st with
    | (Ok a, st') => k a st'
    | (Raise e, st') => (Raise e, st')
    end.

Definition raise {St A} (e : Exception) : SE St A := λ st, (Raise e, st).

#[global] Instance SE_ret {St} : MRet (SE St) := @ret St.
#[global] Instance SE_bind {St} : MBind (SE St) := λ A B k m, bind m k.

(** [for x in xs: acc = body x acc], stopping at the first exception. *)
Fixpoint for_each {St X A} (body : X → A → SE St A) (xs : list X) (acc : A)
  : SE St A :=
  match xs with
  | [] => ret acc
  | x :: xs' => acc' ← body x acc; for_each body xs' acc'
  end.

(** ** Methods as computations over the object *)

Abbreviation M := (SE Simulator).

Definition get_frames : M Z := λ self, (Ok (frames self), self).
Definition get_reference_string : M (list Z) :=
  λ self, (Ok (reference_string self), self).
(** [len(self.log)] *)
Definition log_len : M nat := λ self, (Ok (length (log self)), self).

(** [self.page_hits += 1] *)
Definition incr_page_hits : M unit := λ self,
  (Ok tt, mkSimulator (frames self) (reference_string self)
            (page_faults self) (S (page_hits self)) (log self)).

(** [self.page_faults += 1] *)
Definition incr_page_faults : M unit := λ self,
  (Ok tt, mkSimulator (frames self) (reference_string self)
            (S (page_faults self)) (page_hits self) (log self)).

(** [self.log.append(entry)] *)
Definition log_append (entry : LogEntry) : M unit := λ self,
  (Ok tt, mkSimulator (frames self) (reference_string self)
            (page_faults self) (page_hits self) (log self ++ [entry])).

(** [log_state]: append the snapshot [list(state)]. *)
Definition log_state (state : list Z) : M unit :=
  log_append (MemoryState state).

(** [reset_metrics] *)
Definition reset_metrics : M unit := λ self,
  (Ok tt, mkSimulator (frames self) (reference_string self) 0 0 []).

(** [page in container] *)
Definition contains (page : Z) (container : list Z) : bool :=
  bool_decide (page ∈ container).

(** [len(container) >= self.frames] *)
Definition is_full {A} (container : list A) (frames : Z) : bool :=
  bool_decide (frames ≤ Z.of_nat (length container)).

(** ** FIFO *)

(** One iteration of the loop of [fifo]; [queue] is the deque, oldest first. *)
Definition fifo_step (page : Z) (queue : list Z) : M (list Z) :=
  queue' ←
    (if contains page queue then
       incr_page_hits ;; ret queue
     else
       incr_page_faults ;;
       fr ← get_frames;
       queue1 ←
         (if is_full queue fr then
            match queue with
            | [] => raise IndexError
            | removed :: rest =>
                log_append (Replaced removed page) ;; ret rest
            end
          else ret queue);
       ret (queue1 ++ [page]));
  log_state queue' ;;
  ret queue'.

Definition fifo : M unit :=
  reset_metrics ;;
  refs ← get_reference_string;
  for_each fifo_step refs [] ;;
  ret tt.

(** ** LRU *)

(** [OrderedDict.move_to_end(page)] on the keys, for a key that is present. *)
Definition move_to_end (page : Z) (cache : list Z) : list Z :=
  filter (λ k, k ≠ page) cache ++ [page].

(** [cache[page] = True] on the keys: a new key goes last, a present key
    keeps its place. *)
Definition od_setitem (page : Z) (cache : list Z) : list Z :=
  if contains page cache then cache else cache ++ [page].

(** One iteration of the loop of [lru]; [cache] holds the keys of the
    [OrderedDict], least recently used first. *)
Definition lru_step (page : Z) (cache : list Z) : M (list Z) :=
  cache' ←
    (if contains page cache then
       incr_page_hits ;; ret (move_to_end page cache)
     else
       incr_page_faults ;;
       fr ← get_frames;
       cache1 ←
         (if is_full cache fr then
            match cache with
            | [] => raise KeyError
            | removed :: rest =>
                log_append (Replaced removed page) ;; ret rest
            end
          else ret cache);
       ret (od_setitem page cache1));
  log_state cache' ;;
  ret cache'.

Definition lru : M unit :=
  reset_metrics ;;
  refs ← get_reference_string;
  for_each lru_step refs [] ;;
  ret tt.

(** ** Built-in [min] and [max] with a key *)

(** [pick better key best l]: scan [l] left to right and replace the current
    choice only by an item whose key is strictly better, as the built-ins
    do; so among equally good items the first one met is returned. *)
Fixpoint pick {A K} (better : K → K → bool) (key : A → K)
    (best : A) (l : list A) : A :=
  match l with
  | [] => best
  | x :: l' => pick better key (if better (key x) (key best) then x else best) l'
  end.

(** [None] stands for the [ValueError] of an empty iterable. *)
Definition py_select {A K} (better : K → K → bool) (key : A → K)
    (l : list A) : option A :=
  match l with
  | [] => None
  | x :: l' => Some (pick better key x l')
  end.

(** ** LFU *)

(** [(a, b) < (c, d)] on tuples of integers. *)
Definition tuple_lt (x y : nat * nat) : bool :=
  bool_decide (x.1 < y.1 ∨ (x.1 = y.1 ∧ x.2 < y.2))%nat.

(** [frequency[page] += 1] on a [Counter]: a missing key reads as 0. *)
Definition counter_incr (page : Z) (frequency : gmap Z nat) : gmap Z nat :=
  <[page := S (frequency !!! page)]> frequency.

(** [del cache[k]] *)
Definition dict_del (k : Z) (cache : list (Z * nat)) : list (Z * nat) :=
  filter (λ kv, kv.1 ≠ k) cache.

(** [cache[k] = v]: a present key keeps its place and takes the new value,
    a new key goes last. *)
Definition dict_setitem (k : Z) (v : nat) (cache : list (Z * nat))
  : list (Z * nat) :=
  if contains k cache.*1
  then (λ kv, if bool_decide (kv.1 = k) then (k, v) else kv) <$> cache
  else cache ++ [(k, v)].

(** [min(cache, key=lambda k: (frequency[k], cache[k]))]: the iteration is
    over the keys in insertion order, and [cache[k]] is the value stored
    with [k], so the scan is written over the items. *)
Definition lfu_least_used (frequency : gmap Z nat) (cache : list (Z * nat))
  : option Z :=
  fst <$> py_select tuple_lt (λ kv, (frequency !!! kv.1, kv.2)) cache.

(** One iteration of the loop of [lfu]. *)
Definition lfu_step (page : Z) (st : list (Z * nat) * gmap Z nat)
  : M (list (Z * nat) * gmap Z nat) :=
  let cache := st.1 in
  let frequency := counter_incr page st.2 in
  cache' ←
    (if contains page cache.*1 then
       incr_page_hits ;; ret cache
     else
       incr_page_faults ;;
       fr ← get_frames;
       cache1 ←
         (if is_full cache fr then
            match lfu_least_used frequency cache with
            | None => raise ValueError
            | Some least_used =>
                log_append (Replaced least_used page) ;;
                ret (dict_del least_used cache)
            end
          else ret cache);
       n ← log_len;
       ret (dict_setitem page n cache1));
  log_state cache'.*1 ;;
  ret (cache', frequency).

Definition lfu : M unit :=
  reset_metrics ;;
  refs ← get_reference_string;
  for_each lfu_step refs ([], ∅) ;;
  ret tt.

(** ** Optimal *)

(** The built-in [set] of integers. [set_iter] is the order in which the
    container is iterated, which is also the order of [list(s)]; the
    language does not fix it, so only the contents are specified.
    [set_remove] is used on members only ([KeyError] otherwise). *)
Class PySet (T : Type) : Type := {
  set_new : T;
  set_iter : T → list Z;
  set_add : Z → T → T;
  set_remove : Z → T → T;
  set_iter_new : set_iter set_new = [];
  set_iter_add : ∀ x s,
    NoDup (set_iter s) → x ∉ set_iter s →
    set_iter (set_add x s) ≡ₚ x :: set_iter s;
  set_iter_remove : ∀ x s,
    NoDup (set_iter s) → x ∈ set_iter s →
    x :: set_iter (set_remove x s) ≡ₚ set_iter s
}.

(** The value of [future_indices[p]]: an index, or [float('inf')]. *)
Inductive Distance : Type :=
  | Finite (n : nat)
  | Infinity.

(** [a > b] between indices and [float('inf')]. *)
Definition distance_gt (a b : Distance) : bool :=
  match a, b with
  | Finite n, Finite m => bool_decide (m < n)%nat
  | Finite _, Infinity => false
  | Infinity, Finite _ => true
  | Infinity, Infinity => false
  end.

(** [l.index(p)]: position of the first occurrence; [None] is the
    [ValueError] of an absent value. *)
Fixpoint index (p : Z) (l : list Z) : option nat :=
  match l with
  | [] => None
  | x :: l' => if bool_decide (x = p) then Some 0%nat else S <$> index p l'
  end.

(** [future.index(p) if p in future else float('inf')] *)
Definition future_index (p : Z) (future : list Z) : Distance :=
  if contains p future then
    match index p future with Some n => Finite n | None => Infinity end
  else Infinity.

(** [enumerate(l)] *)
Definition enumerate {A} (l : list A) : list (nat * A) :=
  zip (seq 0 (length l)) l.

Section Optimal.
Context {T : Type} `{PySet T}.

(** One iteration of the loop of [optimal], at index [i]. *)
Definition optimal_step (x : nat * Z) (cache : T) : M T :=
  let i := x.1 in
  let page := x.2 in
  cache' ←
    (if contains page (set_iter cache) then
       incr_page_hits ;; ret cache
     else
       incr_page_faults ;;
       fr ← get_frames;
       cache1 ←
         (if is_full (set_iter cache) fr then
            refs ← get_reference_string;
            let future_indices :=
              (λ p, (p, future_index p (drop (i + 1) refs)))
                <$> set_iter cache in
            match py_select distance_gt snd future_indices with
            | None => raise ValueError
            | Some to_replace =>
                let cache1 := set_remove to_replace.1 cache in
                log_append (Replaced to_replace.1 page) ;; ret cache1
            end
          else ret cache);
       ret (set_add page cache1));
  log_state (set_iter cache') ;;
  ret cache'.

Definition optimal : M unit :=
  reset_metrics ;;
  refs ← get_reference_string;
  for_each optimal_step (enumerate refs) set_new ;;
  ret tt.
End Optimal.

(** ** The policies *)

Inductive Policy : Type := FIFO | LRU | LFU | Optimal.

Definition run_policy {T : Type} `{PySet T} (p : Policy) : M unit :=
  match p with
  | FIFO => fifo
  | LRU => lru
  | LFU => lfu
  | Optimal => optimal (T := T)
  end.

(** ** Report and driver *)

(** What is written to standard output, kept structured: one item for each
    call of [print], not one for each line of text. The texts of [Heading]
    and [MetricsHeading] begin with a newline, so each of these two items
    is an empty line followed by a line of text; every other item is one
    line. The percentage items hold the exact quotients, where the code
    prints them with the format [:.2f]: the rounding to a binary float and
    to two decimals is not part of the model. *)
Inductive Output : Type :=
  | Banner
  | Heading (algorithm_name : string)
  | Entry (entry : LogEntry)
  | MetricsHeading
  | TotalPageFaults (n : nat)
  | TotalPageHits (n : nat)
  | PageFaultPercentage (q : Q)
  | PageHitPercentage (q : Q).

(** The running program: the simulator object, what was printed so far,
    and (ghost) the policy methods entered so far, each with the frame
    count of the object at entry. *)
Record Process : Type := mkProcess {
  simulator : Simulator;
  stdout : list Output;
  entered : list (Policy * Z)
}.

Abbreviation P := (SE Process).

Definition print (item : Output) : P unit := λ w,
  (Ok tt, mkProcess (simulator w) (stdout w ++ [item]) (entered w)).

Definition get_simulator : P Simulator := λ w, (Ok (simulator w), w).

(** [a / b] on integers: true division, [ZeroDivisionError] when [b] is 0. *)
Definition true_div {St} (a b : nat) : SE St Q :=
  if bool_decide (b = 0%nat) then raise ZeroDivisionError
  else ret (Qred (inject_Z (Z.of_nat a) / inject_Z (Z.of_nat b))).

(** [display_results] *)
Definition display_results (algorithm_name : string) : P unit :=
  self ← get_simulator;
  print (Heading algorithm_name) ;;
  for_each (λ entry _, print (Entry entry)) (log self) tt ;;
  print MetricsHeading ;;
  print (TotalPageFaults (page_faults self)) ;;
  print (TotalPageHits (page_hits self)) ;;
  q ← true_div (page_faults self) (length (reference_string self));
  print (PageFaultPercentage (Qred (q * 100))) ;;
  q ← true_div (page_hits self) (length (reference_string self));
  print (PageHitPercentage (Qred (q * 100))).

Section Main.
Context {T : Type} `{PySet T}.

(** A call [simulator.<policy>()] from [main]. *)
Definition call (p : Policy) : P unit := λ w,
  let '(r, self') := run_policy (T := T) p (simulator w) in
  (r, mkProcess self' (stdout w)
        (entered w ++ [(p, frames (simulator w))])).

(** [main], from the point where the two inputs have been read and
    converted: [frames] and [reference_string] are the values of the
    local variables of these names. The banner is printed before that; the
    two prompts of [input] are not recorded. *)
Definition main (frames : Z) (reference_string : list Z)
  : Result unit * Process :=
  (call FIFO ;; display_results "FIFO" ;;
   call LRU ;; display_results "LRU" ;;
   call LFU ;; display_results "LFU" ;;
   call Optimal ;; display_results "Optimal")
    (mkProcess (init frames reference_string) [Banner] []).
End Main.

(** * Vocabulary of the statements *)

(** ** One step and one run, seen from outside *)

Definition after_hit (self : Simulator) (entries : list LogEntry) : Simulator :=
  mkSimulator (frames self) (reference_string self)
    (page_faults self) (S (page_hits self)) (log self ++ entries).

Definition after_fault (self : Simulator) (entries : list LogEntry) : Simulator :=
  mkSimulator (frames self) (reference_string self)
    (S (page_faults self)) (page_hits self) (log self ++ entries).

(** [transition page res self res' self'] relates the resident pages and the
    object before and after one reference: a hit, a fault with a free
    frame, or a fault that evicts [victim]. *)
Inductive transition (page : Z) (res : list Z) (self : Simulator)
    (res' : list Z) : Simulator → Prop :=
  | is_hit :
      page ∈ res → res' ≡ₚ res →
      transition page res self res' (after_hit self [MemoryState res'])
  | is_fill :
      page ∉ res → Z.of_nat (length res) < frames self →
      res' ≡ₚ page :: res →
      transition page res self res' (after_fault self [MemoryState res'])
  | is_evict victim rest :
      page ∉ res → frames self ≤ Z.of_nat (length res) →
      res ≡ₚ victim :: rest → res' ≡ₚ page :: rest →
      transition page res self res'
        (after_fault self [Replaced victim page; MemoryState res']).

Inductive trace : list Z → list Z → Simulator → list Z → Simulator → Prop :=
  | trace_nil res self : trace [] res self res self
  | trace_cons page pages res self res1 self1 res2 self2 :
      transition page res self res1 self1 →
      trace pages res1 self1 res2 self2 →
      trace (page :: pages) res self res2 self2.

(** The object right after [reset_metrics]. *)
Definition fresh (self : Simulator) : Simulator :=
  mkSimulator (frames self) (reference_string self) 0 0 [].

(** ** Observations on the log and on the references *)

(** The snapshots of a log, in order. *)
Definition snapshots (entries : list LogEntry) : list (list Z) :=
  omap (λ e, match e with
             | MemoryState state => Some state
             | Replaced _ _ => None
             end) entries.

(** [len(set(pages))] *)
Definition distinct (pages : list Z) : nat :=
  size (list_to_set pages : gset Z).

(** [steps_logged resident refs entries]: [entries] is, reference by
    reference, one snapshot, with a replacement entry right before it
    exactly when a page that was resident before the step is gone after it;
    the replacement entry names that page and the incoming one. *)
Fixpoint steps_logged (resident refs : list Z) (entries : list LogEntry) : bool :=
  match refs with
  | [] => match entries with [] => true | _ :: _ => false end
  | page :: refs' =>
      match entries with
      | MemoryState state :: entries' =>
          forallb (λ p, contains p state) resident
          && steps_logged state refs' entries'
      | Replaced removed incoming :: MemoryState state :: entries' =>
          bool_decide (incoming = page)
          && contains removed resident
          && negb (contains removed state)
          && forallb (λ p, contains p state || bool_decide (p = removed)) resident
          && steps_logged state refs' entries'
      | _ => false
      end
  end.

(** Faults of a run with one frame that currently holds [resident]: a
    reference faults exactly when it differs from the page referenced just
    before it. *)
Fixpoint single_frame_faults (resident : option Z) (refs : list Z) : nat :=
  match refs with
  | [] => 0
  | page :: refs' =>
      (if bool_decide (resident = Some page) then 0 else 1)
      + single_frame_faults (Some page) refs'
  end%nat.

(** What holds of the resident pages [res] once the pages [seen] have been
    referenced, with [fr] frames. *)
Definition resident_inv (fr : Z) (res seen : list Z) : Prop :=
  NoDup res ∧ Z.of_nat (length res) ≤ fr ∧
  (∀ p, p ∈ res → p ∈ seen) ∧
  (Z.of_nat (length res) < fr → ∀ p, p ∈ seen → p ∈ res).

(** The tags of the LFU cache grow along its insertion order and are
    positions already taken in the log. *)
Definition lfu_tags_ok (cache : list (Z * nat)) (self : Simulator) : Prop :=
  StronglySorted (λ x y, (x.2 < y.2)%nat) cache ∧
  Forall (λ kv, (kv.2 < length (log self))%nat) cache.

(** ** Failure and report *)

(** The exception of each policy when it must evict from an empty
    container: [popleft] on an empty deque, [popitem] on an empty
    [OrderedDict], [min] and [max] of an empty iterable. *)
Definition empty_container_error (p : Policy) : Exception :=
  match p with
  | FIFO => IndexError
  | LRU => KeyError
  | LFU => ValueError
  | Optimal => ValueError
  end.

(** The object when the first reference raises: one fault counted, nothing
    logged. *)
Definition failed_at_first (self : Simulator) : Simulator :=
  mkSimulator (frames self) (reference_string self) 1 0 [].

(** What has been printed when the first percentage is about to be
    computed: the heading, the log, and the two totals. *)
Definition report_head (algorithm_name : string) (self : Simulator) : list Output :=
  [Heading algorithm_name] ++ (Entry <$> log self) ++
  [MetricsHeading; TotalPageFaults (page_faults self);
   TotalPageHits (page_hits self)].

(** ** Belady's rule on resident sets *)

(** [farthest future res]: the resident pages that no other resident page
    beats in distance to its next use in [future]. *)
Definition farthest (future res : list Z) : list Z :=
  filter (λ v, forallb (λ q, negb (distance_gt (future_index q future)
                                               (future_index v future))) res
               = true) res.

(** The fault counts that Belady's rule allows on [refs], starting from the
    resident pages [res] with [fr] frames: every choice among the farthest
    pages is followed. *)
Fixpoint belady_faults (fr : Z) (res refs : list Z) : list nat :=
  match refs with
  | [] => [0%nat]
  | page :: future =>
      if contains page res then belady_faults fr res future
      else if is_full res fr then
        victim ← farthest future res;
        S <$> belady_faults fr (filter (λ q, q ≠ victim) res ++ [page]) future
      else S <$> belady_faults fr (res ++ [page]) future
  end.

(** The container holds exactly the pages of [res]. *)
Definition holds {T : Type} `{PySet T} (cache : T) (res : list Z) : Prop :=
  NoDup (set_iter cache) ∧ NoDup res ∧ ∀ p, p ∈ set_iter cache ↔ p ∈ res.

(** ** Use of the object by a policy *)

(** A computation that leaves the two inputs of the object as they are,
    whether it returns or raises. *)
Definition keeps_input {A} (m : M A) : Prop :=
  ∀ self,
    frames (m self).2 = frames self ∧
    reference_string (m self).2 = reference_string self.

(** ** Reading faults and evictions off the log *)

(** The references that met a memory state without their page: [prev] is
    the state before the first of [refs], the snapshots are the states
    after each of them. *)
Fixpoint faulted (prev refs : list Z) (snaps : list (list Z)) : list Z :=
  match refs, snaps with
  | page :: refs', state :: snaps' =>
      (if contains page prev then [] else [page]) ++ faulted state refs' snaps'
  | _, _ => []
  end.

(** The evicted pages named by the replacement entries of a log, in order. *)
Definition removed_pages (entries : list LogEntry) : list Z :=
  omap (λ e, match e with
             | Replaced removed _ => Some removed
             | MemoryState _ => None
             end) entries.

(** ** LRU in closed form *)

(** The distinct pages of [refs], each at the place of its last reference:
    the least recently used page first. *)
Definition recency (refs : list Z) : list Z := remove_dups refs.

(** The last [n] elements of [l] (all of [l] when it is shorter). *)
Definition most_recent (n : nat) (l : list Z) : list Z :=
  drop (length l - n) l.

(** The faults of LRU with [n] frames on [refs] after the references
    [seen]: a reference faults when its page is not among the [n] most
    recently used ones. *)
Fixpoint lru_faults (n : nat) (seen refs : list Z) : nat :=
  match refs with
  | [] => 0
  | page :: refs' =>
      (if contains page (most_recent n (recency seen)) then 0 else 1)
      + lru_faults n (seen ++ [page]) refs'
  end%nat.

(** ** Next use of a page *)

(** [q] is referenced again in [future], and before any next reference to
    [v]. *)
Definition used_sooner (q v : Z) (future : list Z) : Prop :=
  ∃ m, index q future = Some m ∧
       ∀ n, index v future = Some n → (m < n)%nat.

(** If [v] is referenced again in [future], then so is [q], and not
    later. *)
Definition used_no_later (q v : Z) (future : list Z) : Prop :=
  ∀ n, index v future = Some n →
       ∃ m, index q future = Some m ∧ (m ≤ n)%nat.

(** ** The report of one policy *)

(** The value printed as a percentage: [count / total * 100]. *)
Definition percentage (count total : nat) : Q :=
  Qred (Qred (inject_Z (Z.of_nat count) / inject_Z (Z.of_nat total)) * 100).

(** All that [display_results] prints for an object with a non-empty
    reference sequence, one item for each call of [print]. *)
Definition report (algorithm_name : string) (self : Simulator) : list Output :=
  report_head algorithm_name self ++
  [PageFaultPercentage
     (percentage (page_faults self) (length (reference_string self)));
   PageHitPercentage
     (percentage (page_hits self) (length (reference_string self)))].



(** ** Demand paging in general *)

(** [paging fr res refs f]: starting from the resident set [res], some
    demand-paging schedule with [fr] frames serves [refs] with [f] faults.
    A resident page is a hit; a missing page is loaded, into a free frame
    if there is one and otherwise in place of a resident page chosen
    freely. *)
Inductive paging (fr : Z) : gset Z → list Z → nat → Prop :=
  | paging_done res : paging fr res [] 0
  | paging_hit res page refs f :
      page ∈ res → paging fr res refs f → paging fr res (page :: refs) f
  | paging_fill res page refs f :
      page ∉ res → Z.of_nat (size res) < fr →
      paging fr ({[page]} ∪ res) refs f →
      paging fr res (page :: refs) (S f)
  | paging_evict res page victim refs f :
      page ∉ res → fr ≤ Z.of_nat (size res) → victim ∈ res →
      paging fr ({[page]} ∪ (res ∖ {[victim]})) refs f →
      paging fr res (page :: refs) (S f).

(** * Properties *)

(** ** A set that iterates in insertion order *)

Lemma filter_ne_absent (x : Z) (s : list Z) :
  x ∉ s → filter (λ y, y ≠ x) s = s.
Proof.
  induction s as [|z s IH]; [done|].
  intros [Hz Hs]%not_elem_of_cons. rewrite filter_cons.
  rewrite decide_True by done. f_equal. by apply IH.
Qed.

Lemma filter_ne_present (x : Z) (s : list Z) :
  NoDup s → x ∈ s → x :: filter (λ y, y ≠ x) s ≡ₚ s.
Proof.
  induction s as [|y s IH]; intros Hnd Hin; [by apply elem_of_nil in Hin|].
  apply NoDup_cons in Hnd as [Hy Hnd]. rewrite filter_cons.
  destruct (decide (y = x)) as [->|Hne].
  - rewrite decide_False by (intros Hc; by apply Hc).
    by rewrite filter_ne_absent.
  - rewrite decide_True by done. apply elem_of_cons in Hin as [->|Hin]; [done|].
    rewrite Permutation_swap. f_equiv. by apply IH.
Qed.

#[global] Instance ListSet : PySet (list Z) := {|
  set_new := [];
  set_iter := id;
  set_add x s := s ++ [x];
  set_remove x s := filter (λ y, y ≠ x) s;
  set_iter_new := eq_refl;
  set_iter_add x s _ _ := Permutation_app_comm s [x];
  set_iter_remove := filter_ne_present
|}.

(** ** Runs on small inputs *)

Example fifo_run :
  fifo (init 2 [1; 2; 1; 3]) =
  (Ok tt, mkSimulator 2 [1; 2; 1; 3] 3 1
            [MemoryState [1]; MemoryState [1; 2]; MemoryState [1; 2];
             Replaced 1 3; MemoryState [2; 3]]).
Proof. reflexivity. Qed.

(** The reuse of page 1 makes page 2 the least recently used one. *)
Example lru_run :
  lru (init 3 [1; 2; 3; 1; 4]) =
  (Ok tt, mkSimulator 3 [1; 2; 3; 1; 4] 4 1
            [MemoryState [1]; MemoryState [1; 2]; MemoryState [1; 2; 3];
             MemoryState [2; 3; 1]; Replaced 2 4; MemoryState [3; 1; 4]]).
Proof. reflexivity. Qed.

(** Pages 2 and 3 both have frequency 1 when 4 arrives; 2 has the smaller
    tag. *)
Example lfu_run :
  lfu (init 3 [1; 2; 1; 3; 4]) =
  (Ok tt, mkSimulator 3 [1; 2; 1; 3; 4] 4 1
            [MemoryState [1]; MemoryState [1; 2]; MemoryState [1; 2];
             MemoryState [1; 2; 3]; Replaced 2 4; MemoryState [1; 3; 4]]).
Proof. vm_compute. reflexivity. Qed.

Example optimal_run :
  optimal (T := list Z) (init 3 [1; 2; 3; 4; 1; 2; 5; 1; 2; 3]) =
  (Ok tt, mkSimulator 3 [1; 2; 3; 4; 1; 2; 5; 1; 2; 3] 6 4
            [MemoryState [1]; MemoryState [1; 2]; MemoryState [1; 2; 3];
             Replaced 3 4; MemoryState [1; 2; 4]; MemoryState [1; 2; 4];
             MemoryState [1; 2; 4]; Replaced 4 5; MemoryState [1; 2; 5];
             MemoryState [1; 2; 5]; MemoryState [1; 2; 5];
             Replaced 1 3; MemoryState [2; 5; 3]]).
Proof. reflexivity. Qed.

(** A stale object is reset by each policy. *)
Example fifo_resets :
  fifo (mkSimulator 1 [5] 9 9 [Replaced 0 0]) =
  (Ok tt, mkSimulator 1 [5] 1 0 [MemoryState [5]]).
Proof. reflexivity. Qed.

(** [steps_logged] accepts the log of an evicting step and rejects a missing
    snapshot, a doubled snapshot and an eviction that is not logged. *)
Example steps_logged_samples :
  steps_logged [1; 2] [3] [Replaced 1 3; MemoryState [2; 3]] = true ∧
  steps_logged [] [1] [] = false ∧
  steps_logged [] [1] [MemoryState [1]; MemoryState [1]] = false ∧
  steps_logged [1; 2] [3] [MemoryState [2; 3]] = false ∧
  steps_logged [1; 2] [3] [MemoryState [2; 3]; Replaced 1 3] = false.
Proof. repeat split; reflexivity. Qed.

Example single_frame_faults_sample :
  single_frame_faults None [1; 1; 2; 1; 3; 3] = 4%nat.
Proof. reflexivity. Qed.

Example main_run :
  main (T := list Z) 1 [4; 4] =
  (Ok tt,
   mkProcess (mkSimulator 1 [4; 4] 1 1 [MemoryState [4]; MemoryState [4]])
     ([Banner] ++
      concat ((λ name,
         [Heading name; Entry (MemoryState [4]); Entry (MemoryState [4]);
          MetricsHeading; TotalPageFaults 1; TotalPageHits 1;
          PageFaultPercentage 50; PageHitPercentage 50])
         <$> ["FIFO"; "LRU"; "LFU"; "Optimal"]))
     [(FIFO, 1); (LRU, 1); (LFU, 1); (Optimal, 1)]).
Proof. vm_compute. reflexivity. Qed.

(** ** One step of any policy, seen from outside *)

Ltac run_step :=
  cbv [mbind SE_bind bind ret raise get_frames get_reference_string log_len
       incr_page_hits incr_page_faults log_append log_state reset_metrics];
  cbn [fst snd frames reference_string page_faults page_hits log];
  rewrite <- ?app_assoc; cbn [app].

Lemma contains_true page l : contains page l = true ↔ page ∈ l.
Proof. unfold contains. by rewrite bool_decide_eq_true. Qed.

Lemma contains_false page l : contains page l = false ↔ page ∉ l.
Proof. unfold contains. by rewrite bool_decide_eq_false. Qed.

Lemma is_full_true {A} (l : list A) fr :
  is_full l fr = true ↔ fr ≤ Z.of_nat (length l).
Proof. unfold is_full. by rewrite bool_decide_eq_true. Qed.

Lemma is_full_false {A} (l : list A) fr :
  is_full l fr = false ↔ Z.of_nat (length l) < fr.
Proof. unfold is_full. rewrite bool_decide_eq_false. lia. Qed.

Lemma fifo_step_transition page queue self :
  1 ≤ frames self → NoDup queue →
  ∃ queue' self',
    fifo_step page queue self = (Ok queue', self') ∧
    transition page queue self queue' self'.
Proof.
  intros Hfr Hnd. unfold fifo_step.
  destruct (contains page queue) eqn:Hin.
  - apply contains_true in Hin. run_step.
    eexists _, _. split; [reflexivity|]. by apply is_hit.
  - apply contains_false in Hin. run_step.
    destruct (is_full queue (frames self)) eqn:Hfull.
    + apply is_full_true in Hfull.
      destruct queue as [|removed rest]; [simpl in Hfull; lia|].
      run_step. eexists _, _. split; [reflexivity|].
      eapply (is_evict _ _ _ _ removed rest); [done..|].
      by rewrite Permutation_app_comm.
    + apply is_full_false in Hfull. run_step.
      eexists _, _. split; [reflexivity|].
      apply is_fill; [done..|]. by rewrite Permutation_app_comm.
Qed.

Lemma lru_step_transition page cache self :
  1 ≤ frames self → NoDup cache →
  ∃ cache' self',
    lru_step page cache self = (Ok cache', self') ∧
    transition page cache self cache' self'.
Proof.
  intros Hfr Hnd. unfold lru_step.
  destruct (contains page cache) eqn:Hin.
  - apply contains_true in Hin. run_step.
    eexists _, _. split; [reflexivity|]. apply is_hit; [done|].
    unfold move_to_end. rewrite Permutation_app_comm. simpl.
    by apply filter_ne_present.
  - apply contains_false in Hin. run_step.
    destruct (is_full cache (frames self)) eqn:Hfull.
    + apply is_full_true in Hfull.
      destruct cache as [|removed rest]; [simpl in Hfull; lia|].
      run_step. eexists _, _. split; [reflexivity|].
      eapply (is_evict _ _ _ _ removed rest); [done..|].
      apply not_elem_of_cons in Hin as [_ Hin].
      unfold od_setitem. apply contains_false in Hin. rewrite Hin.
      by rewrite Permutation_app_comm.
    + apply is_full_false in Hfull. run_step.
      eexists _, _. split; [reflexivity|].
      apply is_fill; [done..|].
      unfold od_setitem. apply contains_false in Hin. rewrite Hin.
      by rewrite Permutation_app_comm.
Qed.

(** ** What [min] and [max] return *)

Lemma pick_elem {A K} (better : K → K → bool) (key : A → K) best l :
  pick better key best l ∈ best :: l.
Proof.
  revert best. induction l as [|x l IH]; intros best; simpl; [set_solver|].
  specialize (IH (if better (key x) (key best) then x else best)).
  destruct (better (key x) (key best)); set_solver.
Qed.

Lemma py_select_elem {A K} (better : K → K → bool) (key : A → K) l r :
  py_select better key l = Some r → r ∈ l.
Proof.
  destruct l as [|x l]; simpl; [done|]. intros [= <-]. apply pick_elem.
Qed.

Lemma py_select_is_Some {A K} (better : K → K → bool) (key : A → K) l :
  l ≠ [] → is_Some (py_select better key l).
Proof. destruct l; [done|]. intros _. by eexists. Qed.

Section Extremum.
Context {A K : Type} (better : K → K → bool) (key : A → K).
Hypothesis better_irrefl : ∀ a, better a a = false.
Hypothesis better_trans :
  ∀ a b c, better a b = true → better b c = true → better a c = true.
Hypothesis better_neg_trans :
  ∀ a b c, better a b = false → better b c = false → better a c = false.

Lemma pick_extremal best l x :
  x ∈ best :: l → better (key x) (key (pick better key best l)) = false.
Proof.
  revert best x. induction l as [|y l IH]; intros best x Hx; simpl.
  - apply list_elem_of_singleton in Hx as ->. apply better_irrefl.
  - set (best' := if better (key y) (key best) then y else best).
    assert (Hbest' : better (key best') (key (pick better key best' l)) = false)
      by (apply IH; set_solver).
    apply elem_of_cons in Hx as [->|[->|Hx]%elem_of_cons].
    + subst best'. destruct (better (key y) (key best)) eqn:Hy; [|done].
      destruct (better (key best) (key (pick better key y l))) eqn:Hb; [|done].
      by rewrite (better_trans _ _ _ Hy Hb) in Hbest'.
    + subst best'. destruct (better (key y) (key best)) eqn:Hy; [done|].
      by apply (better_neg_trans _ (key best)).
    + apply IH. set_solver.
Qed.

Lemma py_select_extremal l r x :
  py_select better key l = Some r → x ∈ l → better (key x) (key r) = false.
Proof.
  destruct l as [|y l]; simpl; [done|]. intros [= <-]. apply pick_extremal.
Qed.
End Extremum.

Lemma tuple_lt_spec x y :
  tuple_lt x y = false ↔ (y.1 < x.1 ∨ (y.1 = x.1 ∧ y.2 ≤ x.2))%nat.
Proof. unfold tuple_lt. rewrite bool_decide_eq_false. lia. Qed.

Lemma tuple_lt_irrefl a : tuple_lt a a = false.
Proof. apply tuple_lt_spec. lia. Qed.

Lemma tuple_lt_trans a b c :
  tuple_lt a b = true → tuple_lt b c = true → tuple_lt a c = true.
Proof. unfold tuple_lt. rewrite !bool_decide_eq_true. lia. Qed.

Lemma tuple_lt_neg_trans a b c :
  tuple_lt a b = false → tuple_lt b c = false → tuple_lt a c = false.
Proof. rewrite !tuple_lt_spec. lia. Qed.

(** ** LFU, case by case *)

Lemma dict_del_keys k (cache : list (Z * nat)) :
  (dict_del k cache).*1 = filter (λ y, y ≠ k) cache.*1.
Proof.
  unfold dict_del. induction cache as [|[k' v] cache IH]; [done|].
  rewrite fmap_cons, !filter_cons. cbn [fst].
  destruct (decide (k' ≠ k)); [rewrite fmap_cons; cbn [fst]|]; by rewrite IH.
Qed.

Lemma dict_setitem_new k v (cache : list (Z * nat)) :
  k ∉ cache.*1 → dict_setitem k v cache = cache ++ [(k, v)].
Proof. intros Hk. unfold dict_setitem. apply contains_false in Hk. by rewrite Hk. Qed.

Lemma lfu_least_used_elem frequency cache victim :
  lfu_least_used frequency cache = Some victim →
  ∃ tag, (victim, tag) ∈ cache ∧
    ∀ k t, (k, t) ∈ cache →
      tuple_lt (frequency !!! k, t) (frequency !!! victim, tag) = false.
Proof.
  unfold lfu_least_used. intros Hsel.
  destruct (py_select _ _ cache) as [[v tag]|] eqn:Hpick; [|done].
  simpl in Hsel. injection Hsel as <-. exists tag. split.
  - by eapply py_select_elem.
  - intros k t Hk.
    by apply (py_select_extremal tuple_lt (λ kv : Z * nat, (frequency !!! kv.1, kv.2))
                tuple_lt_irrefl tuple_lt_trans tuple_lt_neg_trans
                cache (v, tag) (k, t)).
Qed.

Lemma lfu_step_hit page cache frequency self :
  page ∈ cache.*1 →
  lfu_step page (cache, frequency) self =
  (Ok (cache, counter_incr page frequency),
   after_hit self [MemoryState cache.*1]).
Proof.
  intros Hin%contains_true. unfold lfu_step. cbn [fst snd].
  rewrite Hin. by run_step.
Qed.

Lemma lfu_step_fill page cache frequency self :
  page ∉ cache.*1 → Z.of_nat (length cache) < frames self →
  lfu_step page (cache, frequency) self =
  (Ok (cache ++ [(page, length (log self))], counter_incr page frequency),
   after_fault self [MemoryState (cache.*1 ++ [page])]).
Proof.
  intros Hin Hfull%is_full_false. unfold lfu_step. cbn [fst snd].
  rewrite (proj2 (contains_false _ _) Hin). run_step. rewrite Hfull. run_step.
  rewrite dict_setitem_new by done. by rewrite fmap_app.
Qed.

Lemma lfu_step_evict page cache frequency self victim :
  page ∉ cache.*1 → frames self ≤ Z.of_nat (length cache) →
  lfu_least_used (counter_incr page frequency) cache = Some victim →
  lfu_step page (cache, frequency) self =
  (Ok (dict_del victim cache ++ [(page, S (length (log self)))],
       counter_incr page frequency),
   after_fault self
     [Replaced victim page; MemoryState ((dict_del victim cache).*1 ++ [page])]).
Proof.
  intros Hin Hfull%is_full_true Hsel. unfold lfu_step. cbn [fst snd].
  rewrite (proj2 (contains_false _ _) Hin). run_step. rewrite Hfull, Hsel.
  run_step. rewrite length_app. simpl length.
  rewrite dict_setitem_new.
  - rewrite fmap_app. simpl. by replace (length (log self) + 1)%nat
      with (S (length (log self))) by lia.
  - rewrite dict_del_keys. by intros [_ ?]%list_elem_of_filter.
Qed.

Lemma lfu_step_raise page frequency self :
  frames self ≤ 0 →
  lfu_step page ([], frequency) self =
  (Raise ValueError,
   mkSimulator (frames self) (reference_string self)
     (S (page_faults self)) (page_hits self) (log self)).
Proof.
  intros Hfr. unfold lfu_step. cbn [fst snd].
  rewrite (proj2 (contains_false page _)) by (simpl; apply not_elem_of_nil).
  run_step.
  assert (is_full (@nil (Z * nat)) (frames self) = true) as ->
    by (apply is_full_true; simpl; lia).
  done.
Qed.

Lemma lfu_step_transition page st self :
  1 ≤ frames self → NoDup st.1.*1 →
  ∃ st' self',
    lfu_step page st self = (Ok st', self') ∧
    transition page st.1.*1 self st'.1.*1 self'.
Proof.
  destruct st as [cache frequency]. cbn [fst]. intros Hfr Hnd.
  destruct (decide (page ∈ cache.*1)) as [Hin|Hin].
  - eexists _, _. split; [by apply lfu_step_hit|]. by apply is_hit.
  - destruct (decide (frames self ≤ Z.of_nat (length cache))) as [Hfull|Hfull].
    + destruct (py_select_is_Some tuple_lt
        (λ kv : Z * nat, (counter_incr page frequency !!! kv.1, kv.2)) cache)
        as [[victim tag] Hsel]; [destruct cache; [simpl in Hfull; lia|done]|].
      assert (Hlu : lfu_least_used (counter_incr page frequency) cache = Some victim)
        by (unfold lfu_least_used; by rewrite Hsel).
      eexists _, _. split; [by apply lfu_step_evict|]. cbn [fst].
      rewrite fmap_app. cbn [fmap list_fmap fst].
      apply py_select_elem in Hsel.
      assert (Hv : victim ∈ cache.*1)
        by (apply list_elem_of_fmap; by exists (victim, tag)).
      eapply (is_evict _ _ _ _ victim (dict_del victim cache).*1).
      * done.
      * by rewrite length_fmap.
      * rewrite dict_del_keys. symmetry. by apply filter_ne_present.
      * by rewrite Permutation_app_comm.
    + eexists _, _. split; [apply lfu_step_fill; [done|lia]|]. cbn [fst].
      rewrite fmap_app. cbn [fmap list_fmap fst].
      apply is_fill; [done|rewrite length_fmap; lia|].
      by rewrite Permutation_app_comm.
Qed.

(** ** LFU: the tags along a run *)

Lemma tags_filter (P : Z * nat → Prop) `{∀ x, Decision (P x)} cache :
  StronglySorted (λ x y : Z * nat, (x.2 < y.2)%nat) cache →
  StronglySorted (λ x y : Z * nat, (x.2 < y.2)%nat) (filter P cache).
Proof.
  induction 1 as [|kv cache Hsorted IH Hall]; [constructor|].
  rewrite filter_cons. destruct (decide (P kv)); [|done].
  constructor; [done|]. apply Forall_forall. intros x [_ Hx]%list_elem_of_filter.
  by eapply Forall_forall in Hall.
Qed.

Lemma tags_identify cache (x y : Z * nat) :
  StronglySorted (λ x y : Z * nat, (x.2 < y.2)%nat) cache →
  x ∈ cache → y ∈ cache → x.2 = y.2 → x = y.
Proof.
  induction 1 as [|kv cache Hsorted IH Hall]; [by intros ?%elem_of_nil|].
  rewrite Forall_forall in Hall.
  intros [->|Hx]%elem_of_cons [->|Hy]%elem_of_cons Heq; [done| | |by apply IH].
  - specialize (Hall _ Hy). lia.
  - specialize (Hall _ Hx). lia.
Qed.

Lemma lfu_step_keeps_tags page cache frequency self st' self' :
  lfu_step page (cache, frequency) self = (Ok st', self') →
  lfu_tags_ok cache self → lfu_tags_ok st'.1 self'.
Proof.
  intros Hstep [Hsorted Hbelow].
  assert (Hgrow : ∀ entries,
    Forall (λ kv : Z * nat, (kv.2 < length (log self ++ entries))%nat) cache).
  { intros entries. eapply Forall_impl; [exact Hbelow|].
    intros kv Hkv. simpl in Hkv. rewrite length_app. lia. }
  destruct (decide (page ∈ cache.*1)) as [Hin|Hin].
  - rewrite lfu_step_hit in Hstep by done. injection Hstep as <- <-.
    split; [done|apply Hgrow].
  - destruct (decide (frames self ≤ Z.of_nat (length cache))) as [Hfull|Hfree].
    + destruct (lfu_least_used (counter_incr page frequency) cache)
        as [victim|] eqn:Hsel.
      * rewrite (lfu_step_evict _ _ _ _ victim) in Hstep by done.
        injection Hstep as <- <-. cbn [fst]. split.
        -- apply StronglySorted_app_2; [|by apply tags_filter|repeat constructor].
           intros x y [_ Hx]%list_elem_of_filter ->%list_elem_of_singleton. simpl.
           eapply Forall_forall in Hbelow; [|exact Hx]. simpl in Hbelow. lia.
        -- cbn [log after_fault]. apply Forall_app. split.
           ++ apply Forall_forall. intros x [_ Hx]%list_elem_of_filter.
              by eapply Forall_forall in Hgrow.
           ++ repeat constructor. rewrite length_app. simpl. lia.
      * exfalso. destruct cache as [|kv cache]; [|done].
        rewrite lfu_step_raise in Hstep by (simpl in Hfull; lia). done.
    + rewrite lfu_step_fill in Hstep by (done || lia).
      injection Hstep as <- <-. cbn [fst]. split.
      * apply StronglySorted_app_2; [|done|repeat constructor].
        intros x y Hx ->%list_elem_of_singleton. simpl.
        by eapply Forall_forall in Hbelow.
      * cbn [log after_fault]. apply Forall_app. split; [done|].
        repeat constructor. rewrite length_app. simpl. lia.
Qed.

Lemma lfu_loop_keeps_tags refs st self st' self' :
  for_each lfu_step refs st self = (Ok st', self') →
  lfu_tags_ok st.1 self → lfu_tags_ok st'.1 self'.
Proof.
  revert st self. induction refs as [|page refs IH]; intros st self Hloop Hok.
  - by injection Hloop as <- <-.
  - cbn [for_each] in Hloop. cbv [mbind SE_bind bind] in Hloop.
    destruct (lfu_step page st self) as [[st1|e] self1] eqn:Hstep; [|done].
    apply (IH st1 self1 Hloop). destruct st as [cache frequency].
    by eapply lfu_step_keeps_tags.
Qed.

(** With such tags the page that [min] returns is the only minimum: every
    other resident page has a larger frequency, or the same one and a
    larger tag. *)
Lemma lfu_least_used_strict frequency cache self victim :
  lfu_tags_ok cache self →
  lfu_least_used frequency cache = Some victim →
  ∃ tag, (victim, tag) ∈ cache ∧
    ∀ k t, (k, t) ∈ cache → (k, t) ≠ (victim, tag) →
      tuple_lt (frequency !!! victim, tag) (frequency !!! k, t) = true.
Proof.
  intros [Hsorted _] Hsel.
  destruct (lfu_least_used_elem _ _ _ Hsel) as (tag & Htag & Hmin).
  exists tag. split; [done|]. intros k t Hk Hne.
  specialize (Hmin k t Hk). apply tuple_lt_spec in Hmin. simpl in Hmin.
  assert (t ≠ tag).
  { intros ->. apply Hne. by apply (tags_identify cache (k, tag) (victim, tag)). }
  unfold tuple_lt. apply bool_decide_eq_true. simpl. lia.
Qed.

(** ** Optimal, one step *)

Section OptimalStep.
Context {T : Type} `{PySet T}.

Lemma optimal_step_transition x (cache : T) self :
  1 ≤ frames self → NoDup (set_iter cache) →
  ∃ cache' self',
    optimal_step x cache self = (Ok cache', self') ∧
    transition x.2 (set_iter cache) self (set_iter cache') self'.
Proof.
  destruct x as [i page]. intros Hfr Hnd. unfold optimal_step. cbn [fst snd].
  destruct (contains page (set_iter cache)) eqn:Hin.
  - apply contains_true in Hin. run_step.
    eexists _, _. split; [reflexivity|]. by apply is_hit.
  - apply contains_false in Hin. run_step.
    destruct (is_full (set_iter cache) (frames self)) eqn:Hfull.
    + apply is_full_true in Hfull.
      destruct (py_select distance_gt snd _) as [[victim d]|] eqn:Hsel.
      * apply py_select_elem in Hsel.
        apply list_elem_of_fmap in Hsel as (p & [= -> ->] & Hp).
        run_step. eexists _, _. split; [reflexivity|].
        pose proof (set_iter_remove p cache Hnd Hp) as Hrem.
        eapply (is_evict _ _ _ _ p (set_iter (set_remove p cache)));
          [done..|].
        apply set_iter_add.
        -- rewrite <- Hrem in Hnd. by apply NoDup_cons in Hnd as [_ ?].
        -- intros Hc. apply Hin. rewrite <- Hrem. by apply elem_of_cons; right.
      * exfalso. destruct (set_iter cache); [simpl in Hfull; lia|done].
    + apply is_full_false in Hfull. run_step.
      eexists _, _. split; [reflexivity|].
      apply is_fill; [done..|]. by apply set_iter_add.
Qed.
End OptimalStep.

(** ** A whole run, seen from outside *)

Lemma transition_frames page res self res' self' :
  transition page res self res' self' → frames self' = frames self.
Proof. by destruct 1. Qed.

Lemma transition_NoDup page res self res' self' :
  transition page res self res' self' → NoDup res → NoDup res'.
Proof.
  destruct 1 as [Hin Hp|Hin Hlt Hp|victim rest Hin Hge Hres Hp];
    intros Hnd; rewrite Hp.
  - done.
  - by apply NoDup_cons.
  - rewrite Hres in Hnd, Hin. apply NoDup_cons in Hnd as [_ Hnd].
    apply NoDup_cons. split; [|done]. intros Hc. apply Hin. by apply elem_of_cons; right.
Qed.

Section Loop.
Context {X L : Type} (step : X → L → M L).
Context (page_of : X → Z) (resident : L → list Z).
Hypothesis step_transition : ∀ x st self,
  1 ≤ frames self → NoDup (resident st) →
  ∃ st' self',
    step x st self = (Ok st', self') ∧
    transition (page_of x) (resident st) self (resident st') self'.

Lemma for_each_trace xs st self :
  1 ≤ frames self → NoDup (resident st) →
  ∃ st' self',
    for_each step xs st self = (Ok st', self') ∧
    trace (page_of <$> xs) (resident st) self (resident st') self'.
Proof.
  revert st self. induction xs as [|x xs IH]; intros st self Hfr Hnd.
  - eexists _, _. split; [reflexivity|]. constructor.
  - destruct (step_transition x st self Hfr Hnd) as (st1 & self1 & Hstep & Htr).
    destruct (IH st1 self1) as (st2 & self2 & Hloop & Htrace).
    + by rewrite (transition_frames _ _ _ _ _ Htr).
    + by eapply transition_NoDup.
    + exists st2, self2. split; [|by econstructor].
      cbn [for_each]. cbv [mbind SE_bind bind]. by rewrite Hstep.
Qed.
End Loop.

Lemma enumerate_pages {A} (l : list A) : (enumerate l).*2 = l.
Proof. unfold enumerate. apply snd_zip. by rewrite length_seq. Qed.

Section Runs.
Context {T : Type} `{PySet T}.

Lemma run_policy_trace (p : Policy) self :
  1 ≤ frames self →
  ∃ res' self',
    run_policy (T := T) p self = (Ok tt, self') ∧
    trace (reference_string self) [] (fresh self) res' self'.
Proof.
  intros Hfr. destruct p; cbn [run_policy].
  - destruct (for_each_trace fifo_step id id fifo_step_transition
                (reference_string self) [] (fresh self) Hfr (NoDup_nil_2))
      as (st' & self' & Hrun & Htr).
    exists st', self'. rewrite list_fmap_id in Htr. split; [|done].
    unfold fifo. run_step. fold (fresh self). by rewrite Hrun.
  - destruct (for_each_trace lru_step id id lru_step_transition
                (reference_string self) [] (fresh self) Hfr (NoDup_nil_2))
      as (st' & self' & Hrun & Htr).
    exists st', self'. rewrite list_fmap_id in Htr. split; [|done].
    unfold lru. run_step. fold (fresh self). by rewrite Hrun.
  - destruct (for_each_trace lfu_step id (λ st, st.1.*1) lfu_step_transition
                (reference_string self) ([], ∅) (fresh self) Hfr (NoDup_nil_2))
      as (st' & self' & Hrun & Htr).
    exists st'.1.*1, self'. rewrite list_fmap_id in Htr. split; [|done].
    unfold lfu. run_step. fold (fresh self). by rewrite Hrun.
  - assert (Hnd : NoDup (set_iter (set_new (T := T))))
      by (rewrite set_iter_new; constructor).
    destruct (for_each_trace optimal_step snd set_iter optimal_step_transition
                (enumerate (reference_string self)) set_new (fresh self) Hfr Hnd)
      as (st' & self' & Hrun & Htr).
    exists (set_iter st'), self'.
    rewrite enumerate_pages, set_iter_new in Htr. split; [|done].
    unfold optimal. run_step. fold (fresh self). by rewrite Hrun.
Qed.
End Runs.

(** ** Counting *)

Lemma trace_counts pages res self res' self' :
  trace pages res self res' self' →
  (page_hits self' + page_faults self' =
   page_hits self + page_faults self + length pages)%nat.
Proof.
  induction 1 as [|page pages res self res1 self1 res2 self2 Htr _ IH];
    [simpl; lia|].
  rewrite IH. destruct Htr; simpl; lia.
Qed.

(** ** Order of the log *)

Lemma forallb_contains (res state : list Z) :
  (∀ p, p ∈ res → p ∈ state) → forallb (λ p, contains p state) res = true.
Proof.
  intros Hsub. apply forallb_forall. intros p Hp%list_elem_of_In.
  by apply contains_true, Hsub.
Qed.

Lemma trace_steps_logged pages res self res' self' :
  trace pages res self res' self' → NoDup res →
  ∃ entries,
    log self' = log self ++ entries ∧ steps_logged res pages entries = true.
Proof.
  induction 1 as [|page pages res self res1 self1 res2 self2 Htr _ IH];
    intros Hnd.
  - exists []. by rewrite app_nil_r.
  - destruct (IH (transition_NoDup _ _ _ _ _ Htr Hnd)) as (entries & Hlog & Hok).
    destruct Htr as [Hin Hp|Hin Hlt Hp|victim rest Hin Hge Hres Hp];
      cbn [log after_hit after_fault] in Hlog; rewrite <- app_assoc in Hlog;
      eexists; (split; [exact Hlog|]); cbn [app steps_logged]; rewrite Hok.
    + rewrite forallb_contains; [done|]. intros p. by rewrite Hp.
    + rewrite forallb_contains; [done|]. intros p ?. rewrite Hp.
      by apply elem_of_cons; right.
    + assert (Hv : victim ∈ res) by (rewrite Hres; by apply elem_of_cons; left).
      assert (Hv' : victim ∉ res1).
      { rewrite Hp. rewrite Hres in Hnd. apply NoDup_cons in Hnd as [Hvr _].
        intros [->|?]%elem_of_cons; [done|]. by apply Hvr. }
      rewrite bool_decide_eq_true_2 by done.
      rewrite (proj2 (contains_true _ _) Hv), (proj2 (contains_false _ _) Hv').
      cbn [andb negb]. rewrite andb_true_r.
      apply forallb_forall. intros p Hpin%list_elem_of_In.
      rewrite Hres in Hpin. apply elem_of_cons in Hpin as [->|Hpin].
      * rewrite bool_decide_eq_true_2 by done. apply orb_true_r.
      * apply orb_true_iff. left. apply contains_true. rewrite Hp.
        by apply elem_of_cons; right.
Qed.

(** ** A single frame *)

Lemma Permutation_singleton_eq (l : list Z) x : l ≡ₚ [x] → l = [x].
Proof. intros Hp. symmetry in Hp. by apply Permutation_singleton_l in Hp. Qed.

Lemma trace_single_frame pages res self res' self' :
  trace pages res self res' self' →
  frames self = 1 → (length res ≤ 1)%nat →
  page_faults self' = (page_faults self + single_frame_faults (head res) pages)%nat.
Proof.
  induction 1 as [|page pages res self res1 self1 res2 self2 Htr _ IH];
    intros Hfr Hlen; [simpl; lia|].
  assert (Hres1 : res1 = [page]).
  { destruct Htr as [Hin Hp|Hin Hlt Hp|victim rest Hin Hge Hres Hp].
    - destruct res as [|q [|??]]; [by apply elem_of_nil in Hin| |simpl in Hlen; lia].
      apply list_elem_of_singleton in Hin as ->. by apply Permutation_singleton_eq.
    - destruct res; [|simpl in Hlt; lia]. by apply Permutation_singleton_eq.
    - destruct rest as [|??]; [by apply Permutation_singleton_eq|].
      apply Permutation_length in Hres. simpl in Hres. lia. }
  subst res1. rewrite IH; [|by rewrite (transition_frames _ _ _ _ _ Htr)|simpl; lia].
  cbn [single_frame_faults head].
  destruct Htr as [Hin Hp|Hin Hlt Hp|victim rest Hin Hge Hres Hp]; cbn [page_faults after_hit after_fault].
  - destruct res as [|q [|??]]; [by apply elem_of_nil in Hin| |simpl in Hlen; lia].
    apply list_elem_of_singleton in Hin as ->. cbn [head].
    rewrite bool_decide_eq_true_2 by done. lia.
  - destruct res; [|simpl in Hlt; lia]. cbn [head].
    rewrite bool_decide_eq_false_2 by done. lia.
  - destruct res as [|q ?]; [simpl in Hge; lia|]. cbn [head].
    rewrite bool_decide_eq_false_2; [lia|].
    intros [= ->]. apply Hin. by apply elem_of_cons; left.
Qed.

(** ** Size of the resident set *)

Lemma distinct_mono (l k : list Z) :
  (∀ p, p ∈ l → p ∈ k) → (distinct l ≤ distinct k)%nat.
Proof.
  intros Hsub. unfold distinct. apply subseteq_size.
  intros p. rewrite !elem_of_list_to_set. apply Hsub.
Qed.

Lemma distinct_same (l k : list Z) :
  (∀ p, p ∈ l ↔ p ∈ k) → distinct l = distinct k.
Proof.
  intros Heq. apply Nat.le_antisymm; apply distinct_mono; intros p; by rewrite Heq.
Qed.

Lemma distinct_NoDup (l : list Z) : NoDup l → distinct l = length l.
Proof. apply size_list_to_set. Qed.

Lemma distinct_snoc_old (seen : list Z) page :
  page ∈ seen → distinct (seen ++ [page]) = distinct seen.
Proof.
  intros Hin. apply distinct_same. intros p.
  rewrite elem_of_app, list_elem_of_singleton. naive_solver.
Qed.

Lemma distinct_snoc_new (seen : list Z) page :
  page ∉ seen → distinct (seen ++ [page]) = S (distinct seen).
Proof.
  intros Hin. unfold distinct.
  rewrite list_to_set_app_L, union_comm_L. cbn [list_to_set].
  rewrite union_empty_r_L, size_union, size_singleton; [done|].
  apply disjoint_singleton_l. by rewrite elem_of_list_to_set.
Qed.

Lemma resident_inv_bounds fr res seen :
  resident_inv fr res seen →
  Z.of_nat (length res) ≤ fr ∧
  Z.min fr (Z.of_nat (distinct seen)) ≤ Z.of_nat (length res).
Proof.
  intros (Hnd & Hle & Hsub & Hsup). split; [done|].
  destruct (decide (Z.of_nat (length res) < fr)) as [Hlt|Hge]; [|lia].
  rewrite (distinct_same seen res), distinct_NoDup by (done || naive_solver). lia.
Qed.

Lemma transition_resident_inv page res self res' self' seen :
  transition page res self res' self' →
  resident_inv (frames self) res seen →
  resident_inv (frames self) res' (seen ++ [page]).
Proof.
  intros Htr (Hnd & Hle & Hsub & Hsup).
  split; [by eapply transition_NoDup|].
  destruct Htr as [Hin Hp|Hin Hlt Hp|victim rest Hin Hge Hres Hp];
    rewrite Hp; repeat split; try setoid_rewrite Hp.
  - done.
  - intros p Hpin. apply elem_of_app. left. by apply Hsub.
  - intros Hlt p [Hpin| ->%list_elem_of_singleton]%elem_of_app; [by apply Hsup|done].
  - simpl. lia.
  - intros p [->|Hpin]%elem_of_cons; apply elem_of_app;
      [right; by apply list_elem_of_singleton|left; by apply Hsub].
  - intros _ p [Hpin| ->%list_elem_of_singleton]%elem_of_app;
      apply elem_of_cons; [right; by apply Hsup|by left].
  - apply Permutation_length in Hres. simpl in *. lia.
  - intros p [->|Hpin]%elem_of_cons; apply elem_of_app;
      [right; by apply list_elem_of_singleton|left].
    apply Hsub. rewrite Hres. by apply elem_of_cons; right.
  - apply Permutation_length in Hres. simpl in *. lia.
Qed.

Lemma transition_snapshots page res self res' self' :
  transition page res self res' self' →
  snapshots (log self') = snapshots (log self) ++ [res'].
Proof. destruct 1; unfold snapshots; simpl; by rewrite omap_app. Qed.

Lemma trace_resident_bounds pages res self res' self' seen :
  trace pages res self res' self' →
  resident_inv (frames self) res seen →
  ∃ snaps,
    snapshots (log self') = snapshots (log self) ++ snaps ∧
    length snaps = length pages ∧
    ∀ i state, snaps !! i = Some state →
      Z.of_nat (length state) ≤ frames self ∧
      Z.min (frames self) (Z.of_nat (distinct (seen ++ take (S i) pages)))
        ≤ Z.of_nat (length state).
Proof.
  intros Htrace. revert seen.
  induction Htrace as [|page pages res self res1 self1 res2 self2 Htr _ IH];
    intros seen Hinv.
  - exists []. by rewrite app_nil_r.
  - pose proof (transition_resident_inv _ _ _ _ _ seen Htr Hinv) as Hinv1.
    pose proof (transition_frames _ _ _ _ _ Htr) as Hfr.
    destruct (IH (seen ++ [page])) as (snaps & Hsnaps & Hlen & Hbound);
      [by rewrite Hfr|].
    exists (res1 :: snaps). split; [|split].
    + rewrite Hsnaps, (transition_snapshots _ _ _ _ _ Htr).
      by rewrite <- app_assoc.
    + simpl. by rewrite Hlen.
    + intros [|i] state Hlook; simpl in Hlook.
      * injection Hlook as <-. cbn [firstn].
        by apply resident_inv_bounds.
      * specialize (Hbound i state Hlook). rewrite Hfr in Hbound.
        rewrite <- app_assoc in Hbound. exact Hbound.
Qed.

(** ** Enough frames for every page *)

Lemma trace_no_eviction pages res self res' self' seen :
  trace pages res self res' self' →
  NoDup res → (∀ p, p ∈ res ↔ p ∈ seen) →
  Z.of_nat (distinct (seen ++ pages)) ≤ frames self →
  (page_faults self' + distinct seen =
   page_faults self + distinct (seen ++ pages))%nat ∧
  ∃ entries,
    log self' = log self ++ entries ∧
    Forall (λ e, is_replaced e = false) entries.
Proof.
  intros Htrace. revert seen.
  induction Htrace as [|page pages res self res1 self1 res2 self2 Htr _ IH];
    intros seen Hnd Hsame Hroom.
  - rewrite !app_nil_r. split; [done|]. exists []. by rewrite app_nil_r.
  - pose proof (transition_frames _ _ _ _ _ Htr) as Hfr.
    pose proof (transition_NoDup _ _ _ _ _ Htr Hnd) as Hnd1.
    assert (Hlen : length res = distinct seen)
      by (by rewrite <- (distinct_NoDup res), (distinct_same res seen)).
    replace (seen ++ page :: pages) with ((seen ++ [page]) ++ pages) in *
      by (by rewrite <- app_assoc).
    assert (Hprefix : (distinct (seen ++ [page])
                       ≤ distinct ((seen ++ [page]) ++ pages))%nat)
      by (apply distinct_mono; intros p ?; apply elem_of_app; by left).
    destruct Htr as [Hin Hp|Hin Hlt Hp|victim rest Hin Hge Hres Hp].
    + destruct (IH (seen ++ [page])) as (Hcount & entries & Hlog & Hno);
        [done| |done|].
      { intros p. rewrite Hp, elem_of_app, list_elem_of_singleton, <- Hsame.
        naive_solver. }
      rewrite distinct_snoc_old in Hcount by (by apply Hsame).
      split; [exact Hcount|]. exists (MemoryState res1 :: entries).
      split; [by rewrite Hlog; cbn [log after_hit]; rewrite <- app_assoc|].
      by constructor.
    + destruct (IH (seen ++ [page])) as (Hcount & entries & Hlog & Hno);
        [done| |done|].
      { intros p. rewrite Hp, elem_of_cons, elem_of_app, list_elem_of_singleton,
          <- Hsame. naive_solver. }
      rewrite distinct_snoc_new in Hcount by (by rewrite <- Hsame).
      split; [cbn [page_faults after_fault] in Hcount; lia|].
      exists (MemoryState res1 :: entries).
      split; [by rewrite Hlog; cbn [log after_fault]; rewrite <- app_assoc|].
      by constructor.
    + exfalso. rewrite distinct_snoc_new in Hprefix by (by rewrite <- Hsame). lia.
Qed.

(** ** No frame at all *)

Section NoFrames.
Context {T : Type} `{PySet T}.

Lemma run_policy_no_frames (p : Policy) self page rest :
  frames self ≤ 0 → reference_string self = page :: rest →
  run_policy (T := T) p self =
  (Raise (empty_container_error p), failed_at_first self).
Proof.
  intros Hfr Hrefs.
  assert (Hnotin : contains page [] = false)
    by apply contains_false, not_elem_of_nil.
  assert (Hfull : ∀ A, is_full (@nil A) (frames self) = true)
    by (intros A; apply is_full_true; simpl; lia).
  unfold failed_at_first.
  destruct p; cbn [run_policy empty_container_error].
  - unfold fifo. run_step. rewrite Hrefs. cbn [for_each]. unfold fifo_step.
    rewrite Hnotin. run_step. by rewrite Hfull.
  - unfold lru. run_step. rewrite Hrefs. cbn [for_each]. unfold lru_step.
    rewrite Hnotin. run_step. by rewrite Hfull.
  - unfold lfu. run_step. rewrite Hrefs. cbn [for_each].
    cbv [mbind SE_bind bind]. by rewrite lfu_step_raise.
  - unfold optimal. run_step. rewrite Hrefs. cbn [enumerate for_each length seq zip zip_with].
    unfold optimal_step. cbn [fst snd]. rewrite set_iter_new, Hnotin.
    run_step. by rewrite Hfull.
Qed.
End NoFrames.

(** ** The report *)

Lemma print_entries entries w :
  for_each (λ entry _, print (Entry entry)) entries tt w =
  (Ok tt, mkProcess (simulator w) (stdout w ++ (Entry <$> entries)) (entered w)).
Proof.
  revert w. induction entries as [|e entries IH]; intros w.
  - simpl. rewrite app_nil_r. by destruct w.
  - cbn [for_each]. cbv [mbind SE_bind bind print]. rewrite IH.
    cbn [simulator stdout entered]. by rewrite <- app_assoc.
Qed.

(** ** The driver *)

Section Driver.
Context {T : Type} `{PySet T}.

Lemma main_no_frames frames page rest :
  frames ≤ 0 →
  main (T := T) frames (page :: rest) =
  (Raise IndexError,
   mkProcess (mkSimulator frames (page :: rest) 1 0 []) [Banner]
     [(FIFO, frames)]).
Proof.
  intros Hfr. unfold main. cbv [mbind SE_bind bind call].
  cbn [simulator stdout entered].
  by rewrite (run_policy_no_frames FIFO _ page rest).
Qed.

Lemma main_no_references frames :
  main (T := T) frames [] =
  (Raise ZeroDivisionError,
   mkProcess (init frames [])
     [Banner; Heading "FIFO"; MetricsHeading;
      TotalPageFaults 0; TotalPageHits 0]
     [(FIFO, frames)]).
Proof. reflexivity. Qed.
End Driver.

(** ** LFU: frequency first, least frequent out, oldest tag on ties *)

Lemma counter_incr_same page (frequency : gmap Z nat) :
  counter_incr page frequency !!! page = S (frequency !!! page).
Proof. unfold counter_incr. by rewrite lookup_total_insert_eq. Qed.

Lemma counter_incr_other page q (frequency : gmap Z nat) :
  q ≠ page → counter_incr page frequency !!! q = frequency !!! q.
Proof. intros Hne. unfold counter_incr. by rewrite lookup_total_insert_ne. Qed.

(** ** Optimal: the evicted page is one whose next use is farthest *)

Lemma distance_gt_irrefl a : distance_gt a a = false.
Proof. destruct a; simpl; [|done]. apply bool_decide_eq_false. lia. Qed.

Lemma distance_gt_trans a b c :
  distance_gt a b = true → distance_gt b c = true → distance_gt a c = true.
Proof.
  destruct a, b, c; simpl; try done.
  rewrite !bool_decide_eq_true. lia.
Qed.

Lemma distance_gt_neg_trans a b c :
  distance_gt a b = false → distance_gt b c = false → distance_gt a c = false.
Proof.
  destruct a, b, c; simpl; try done.
  rewrite !bool_decide_eq_false. lia.
Qed.

Section OptimalRefinement.
Context {T : Type} `{PySet T}.

Lemma optimal_step_hit i page (cache : T) self :
  page ∈ set_iter cache →
  optimal_step (i, page) cache self =
  (Ok cache, after_hit self [MemoryState (set_iter cache)]).
Proof.
  intros Hin%contains_true. unfold optimal_step. cbn [fst snd].
  rewrite Hin. by run_step.
Qed.

Lemma optimal_step_fill i page (cache : T) self :
  page ∉ set_iter cache → Z.of_nat (length (set_iter cache)) < frames self →
  optimal_step (i, page) cache self =
  (Ok (set_add page cache),
   after_fault self [MemoryState (set_iter (set_add page cache))]).
Proof.
  intros Hin%contains_false Hfree%is_full_false. unfold optimal_step.
  cbn [fst snd]. rewrite Hin. run_step. rewrite Hfree. by run_step.
Qed.

Lemma optimal_step_evict i page (cache : T) self :
  page ∉ set_iter cache → frames self ≤ Z.of_nat (length (set_iter cache)) →
  set_iter cache ≠ [] →
  ∃ victim,
    victim ∈ set_iter cache ∧
    (∀ q, q ∈ set_iter cache →
       distance_gt (future_index q (drop (i + 1) (reference_string self)))
                   (future_index victim (drop (i + 1) (reference_string self)))
       = false) ∧
    optimal_step (i, page) cache self =
    (Ok (set_add page (set_remove victim cache)),
     after_fault self
       [Replaced victim page;
        MemoryState (set_iter (set_add page (set_remove victim cache)))]).
Proof.
  intros Hin%contains_false Hfull%is_full_true Hne. unfold optimal_step.
  cbn [fst snd]. rewrite Hin. run_step. rewrite Hfull. run_step.
  set (future := drop (i + 1) (reference_string self)).
  set (future_indices := (λ p, (p, future_index p future)) <$> set_iter cache).
  destruct (py_select_is_Some distance_gt snd future_indices)
    as [[victim d] Hsel]; [subst future_indices; by destruct (set_iter cache)|].
  rewrite Hsel. run_step. exists victim.
  pose proof (py_select_elem _ _ _ _ Hsel) as Hv.
  apply list_elem_of_fmap in Hv as (v & [= -> ->] & Hv).
  split; [done|]. split; [|done].
  intros q Hq.
  apply (py_select_extremal distance_gt snd distance_gt_irrefl
           distance_gt_trans distance_gt_neg_trans future_indices
           (v, future_index v future) (q, future_index q future) Hsel).
  apply list_elem_of_fmap. by exists q.
Qed.

Lemma holds_length cache res :
  holds cache res → length (set_iter cache) = length res.
Proof.
  intros (Hnd & Hnd' & Hsame).
  by rewrite <- (distinct_NoDup (set_iter cache)), <- (distinct_NoDup res),
    (distinct_same _ res).
Qed.

Lemma holds_add cache res page :
  holds cache res → page ∉ res → holds (set_add page cache) (res ++ [page]).
Proof.
  intros (Hnd & Hnd' & Hsame) Hin.
  assert (Hin' : page ∉ set_iter cache) by (by rewrite Hsame).
  pose proof (set_iter_add page cache Hnd Hin') as Hadd.
  split; [rewrite Hadd; by apply NoDup_cons|]. split.
  - apply NoDup_app. split; [done|]. split; [|apply NoDup_singleton].
    by intros p Hp ->%list_elem_of_singleton.
  - intros p. rewrite Hadd, elem_of_cons, elem_of_app, list_elem_of_singleton, Hsame.
    naive_solver.
Qed.

Lemma holds_remove cache res victim :
  holds cache res → victim ∈ res →
  holds (set_remove victim cache) (filter (λ q, q ≠ victim) res).
Proof.
  intros (Hnd & Hnd' & Hsame) Hin.
  assert (Hin' : victim ∈ set_iter cache) by (by rewrite Hsame).
  pose proof (set_iter_remove victim cache Hnd Hin') as Hrem.
  rewrite <- Hrem in Hnd. apply NoDup_cons in Hnd as [Hv Hnd].
  split; [done|]. split; [by apply NoDup_filter|].
  intros p. rewrite list_elem_of_filter, <- Hsame, <- Hrem, elem_of_cons.
  naive_solver.
Qed.

Lemma for_each_optimal_belady pages i (cache : T) self res :
  1 ≤ frames self → holds cache res →
  drop i (reference_string self) = pages →
  ∃ cache' self',
    for_each optimal_step (zip (seq i (length pages)) pages) cache self
    = (Ok cache', self') ∧
    ∃ n, n ∈ belady_faults (frames self) res pages ∧
         page_faults self' = (page_faults self + n)%nat.
Proof.
  revert i cache self res.
  induction pages as [|page future IH]; intros i cache self res Hfr Hholds Hdrop.
  - eexists _, _. split; [reflexivity|]. exists 0%nat.
    split; [by apply list_elem_of_singleton|lia].
  - assert (Hfuture : drop (i + 1) (reference_string self) = future).
    { by rewrite <- drop_drop, Hdrop. }
    cbn [length seq zip zip_with for_each belady_faults].
    cbv [mbind SE_bind bind].
    pose proof Hholds as (Hnd & Hnd' & Hsame).
    destruct (contains page res) eqn:Hin.
    + apply contains_true in Hin.
      rewrite optimal_step_hit by (by rewrite Hsame).
      destruct (IH (S i) cache (after_hit self [MemoryState (set_iter cache)]) res)
        as (cache' & self' & Hloop & n & Hn & Hcount);
        [done|done|by rewrite <- Nat.add_1_r|].
      exists cache', self'. split; [done|]. by exists n.
    + apply contains_false in Hin.
      assert (Hin' : page ∉ set_iter cache) by (by rewrite Hsame).
      destruct (is_full res (frames self)) eqn:Hfull.
      * apply is_full_true in Hfull.
        destruct (optimal_step_evict i page cache self)
          as (victim & Hv & Hfar & Hstep);
          [done|by rewrite (holds_length _ res)|
           intros Hnil; apply (f_equal length) in Hnil;
           rewrite (holds_length _ res) in Hnil by done; simpl in Hnil; lia|].
        rewrite Hstep. rewrite Hfuture in Hfar.
        assert (Hvres : victim ∈ res) by (by rewrite <- Hsame).
        assert (Hnext : holds (set_add page (set_remove victim cache))
                          (filter (λ q, q ≠ victim) res ++ [page])).
        { apply holds_add; [by apply holds_remove|].
          by intros [_ ?]%list_elem_of_filter. }
        destruct (IH (S i) _ (after_fault self
                    [Replaced victim page;
                     MemoryState (set_iter (set_add page (set_remove victim cache)))])
                    _ Hfr Hnext)
          as (cache' & self' & Hloop & n & Hn & Hcount);
          [by rewrite <- Nat.add_1_r|].
        exists cache', self'. split; [done|]. exists (S n). split.
        -- apply list_elem_of_bind. exists victim. split.
           ++ apply list_elem_of_fmap. by exists n.
           ++ apply list_elem_of_filter. split; [|done].
              apply forallb_forall. intros q Hq%list_elem_of_In.
              rewrite Hfar; [done|by rewrite Hsame].
        -- cbn [page_faults after_fault] in Hcount. lia.
      * apply is_full_false in Hfull.
        rewrite optimal_step_fill by (done || by rewrite (holds_length _ res)).
        destruct (IH (S i) _ (after_fault self
                    [MemoryState (set_iter (set_add page cache))])
                    _ Hfr (holds_add _ _ _ Hholds Hin))
          as (cache' & self' & Hloop & n & Hn & Hcount);
          [by rewrite <- Nat.add_1_r|].
        exists cache', self'. split; [done|]. exists (S n). split.
        -- apply list_elem_of_fmap. by exists n.
        -- cbn [page_faults after_fault] in Hcount. lia.
Qed.

Lemma optimal_belady self :
  1 ≤ frames self →
  ∃ self',
    optimal (T := T) self = (Ok tt, self') ∧
    page_faults self' ∈ belady_faults (frames self) [] (reference_string self).
Proof.
  intros Hfr.
  destruct (for_each_optimal_belady (reference_string self) 0 set_new
              (fresh self) [])
    as (cache' & self' & Hloop & n & Hn & Hcount); [done| |done|].
  { unfold holds. rewrite set_iter_new. split; [constructor|]. split; [constructor|done]. }
  exists self'. split.
  - unfold optimal. run_step. fold (fresh self). unfold enumerate.
    cbn [reference_string fresh] in Hloop. by rewrite Hloop.
  - simpl in Hcount. by rewrite Hcount.
Qed.
End OptimalRefinement.

(** * The claims *)

(** C1. With at least one frame, each of the four policies runs the whole
    reference sequence without raising, and afterwards the hit count plus
    the fault count is the length of the reference sequence (whatever the
    counters and the log held before the call). *)
Theorem hits_plus_faults {T : Type} `{PySet T} (p : Policy) (self : Simulator) :
  1 ≤ frames self →
  ∃ self',
    run_policy (T := T) p self = (Ok tt, self') ∧
    (page_hits self' + page_faults self')%nat = length (reference_string self).
Proof.
  intros Hfr.
  destruct (run_policy_trace (T := T) p self Hfr) as (res' & self' & Hrun & Htr).
  exists self'. split; [done|].
  by rewrite (trace_counts _ _ _ _ _ Htr).
Qed.

Lemma hits_plus_faults_witness :
  1 ≤ frames (init 3 [7; 0; 1; 2; 0; 3; 0; 4]) ∧
  ∃ self',
    run_policy (T := list Z) LRU (init 3 [7; 0; 1; 2; 0; 3; 0; 4]) = (Ok tt, self') ∧
    (page_hits self' + page_faults self')%nat = 8%nat.
Proof.
  split; [simpl; lia|].
  apply (hits_plus_faults (T := list Z) LRU (init 3 [7; 0; 1; 2; 0; 3; 0; 4])).
  simpl; lia.
Defined.



(** C3 (as the code has it). On the reference sequence
    [1,2,3,4,1,2,5,1,2,3] with 3 frames, [optimal] completes with 6 faults
    and 4 hits, whatever the iteration order of the set: pages 1, 2, 3
    fault, 4 evicts 3, 5 evicts 4, and the last 3 faults once more. *)
Theorem optimal_classic_faults {T : Type} `{PySet T} :
  ∃ self',
    optimal (T := T) (init 3 [1; 2; 3; 4; 1; 2; 5; 1; 2; 3]) = (Ok tt, self') ∧
    page_faults self' = 6%nat ∧
    page_hits self' = 4%nat.
Proof.
  destruct (optimal_belady (T := T) (init 3 [1; 2; 3; 4; 1; 2; 5; 1; 2; 3]))
    as (self' & Hrun & Hn); [simpl; lia|].
  exists self'. split; [done|].
  assert (Hfaults : page_faults self' = 6%nat).
  { vm_compute in Hn.
    repeat (apply elem_of_cons in Hn as [Hn|Hn]; [done|]).
    by apply elem_of_nil in Hn. }
  split; [done|].
  destruct (run_policy_trace (T := T) Optimal
              (init 3 [1; 2; 3; 4; 1; 2; 5; 1; 2; 3]))
    as (res' & self'' & Hrun' & Htr); [simpl; lia|].
  cbn [run_policy] in Hrun'. rewrite Hrun in Hrun'.
  injection Hrun' as <-.
  apply trace_counts in Htr. rewrite Hfaults in Htr. simpl in Htr. lia.
Qed.

(** C3, the claim as written fails: no set implementation makes [optimal]
    count 7 faults on that input. *)
Lemma optimal_classic_not_seven :
  ¬ ∃ (T : Type) (HT : PySet T),
      page_faults
        (optimal (T := T) (init 3 [1; 2; 3; 4; 1; 2; 5; 1; 2; 3])).2 = 7%nat.
Proof.
  intros (T & HT & Hseven).
  destruct (optimal_belady (T := T) (init 3 [1; 2; 3; 4; 1; 2; 5; 1; 2; 3]))
    as (self' & Hrun & Hn); [simpl; lia|].
  rewrite Hrun in Hseven. simpl in Hseven. rewrite Hseven in Hn.
  vm_compute in Hn.
  repeat (apply elem_of_cons in Hn as [Hn|Hn]; [done|]).
  by apply elem_of_nil in Hn.
Qed.




(** C5. With at least one frame, for each policy the run logs one
    snapshot per reference, and the snapshot of step [i] (the resident
    set after reference [i]) has at most [frames] pages and at least
    [min(frames, number of distinct pages among references 0..i)]. *)
Theorem resident_size_bounds {T : Type} `{PySet T} (p : Policy) (self : Simulator) :
  1 ≤ frames self →
  ∃ self',
    run_policy (T := T) p self = (Ok tt, self') ∧
    length (snapshots (log self')) = length (reference_string self) ∧
    ∀ i state, snapshots (log self') !! i = Some state →
      Z.of_nat (length state) ≤ frames self ∧
      Z.min (frames self)
            (Z.of_nat (distinct (take (i + 1) (reference_string self))))
        ≤ Z.of_nat (length state).
Proof.
  intros Hfr.
  destruct (run_policy_trace (T := T) p self Hfr) as (res' & self' & Hrun & Htr).
  exists self'. split; [done|].
  destruct (trace_resident_bounds _ _ _ _ _ [] Htr) as (snaps & Hsnaps & Hlen & Hb).
  { repeat split; simpl; [constructor|lia|done|]. by intros _ q ?%elem_of_nil. }
  simpl in Hsnaps. subst snaps. split; [done|].
  intros i state Hlook. rewrite Nat.add_1_r. by apply Hb.
Qed.

Lemma resident_size_bounds_witness :
  1 ≤ frames (init 2 [1; 2; 1; 3]) ∧
  ∃ self',
    run_policy (T := list Z) LFU (init 2 [1; 2; 1; 3]) = (Ok tt, self') ∧
    length (snapshots (log self')) = 4%nat ∧
    ∀ i state, snapshots (log self') !! i = Some state →
      Z.of_nat (length state) ≤ 2 ∧
      Z.min 2 (Z.of_nat (distinct (take (i + 1) [1; 2; 1; 3])))
        ≤ Z.of_nat (length state).
Proof.
  split; [simpl; lia|].
  apply (resident_size_bounds (T := list Z) LFU (init 2 [1; 2; 1; 3])).
  simpl; lia.
Defined.

(** C6. With at least one frame, for each policy the log is, reference by
    reference, exactly one snapshot, and when the step evicts a page the
    replacement entry (naming the evicted and the incoming page) comes
    right before that snapshot; a step that evicts nothing logs the
    snapshot alone. *)
Theorem log_order {T : Type} `{PySet T} (p : Policy) (self : Simulator) :
  1 ≤ frames self →
  ∃ self',
    run_policy (T := T) p self = (Ok tt, self') ∧
    steps_logged [] (reference_string self) (log self') = true.
Proof.
  intros Hfr.
  destruct (run_policy_trace (T := T) p self Hfr) as (res' & self' & Hrun & Htr).
  exists self'. split; [done|].
  destruct (trace_steps_logged _ _ _ _ _ Htr) as (entries & Hlog & Hok);
    [constructor|].
  simpl in Hlog. by subst entries.
Qed.

Lemma log_order_witness :
  1 ≤ frames (init 2 [1; 2; 1; 3]) ∧
  ∃ self',
    run_policy (T := list Z) FIFO (init 2 [1; 2; 1; 3]) = (Ok tt, self') ∧
    steps_logged [] [1; 2; 1; 3] (log self') = true.
Proof.
  split; [simpl; lia|].
  apply (log_order (T := list Z) FIFO (init 2 [1; 2; 1; 3])).
  simpl; lia.
Defined.

(** C7. With exactly one frame, any two of the four policies complete and
    report the same number of faults. *)
Theorem single_frame_same_faults {T : Type} `{PySet T} (p q : Policy) (self : Simulator) :
  frames self = 1 →
  ∃ self_p self_q,
    run_policy (T := T) p self = (Ok tt, self_p) ∧
    run_policy (T := T) q self = (Ok tt, self_q) ∧
    page_faults self_p = page_faults self_q.
Proof.
  intros Hfr. assert (Hfr1 : 1 ≤ frames self) by lia.
  destruct (run_policy_trace (T := T) p self Hfr1) as (rp & self_p & Hp & Htp).
  destruct (run_policy_trace (T := T) q self Hfr1) as (rq & self_q & Hq & Htq).
  exists self_p, self_q. split; [done|]. split; [done|].
  rewrite (trace_single_frame _ _ _ _ _ Htp), (trace_single_frame _ _ _ _ _ Htq);
    simpl; (done || lia).
Qed.

Lemma single_frame_same_faults_witness :
  frames (init 1 [1; 1; 2; 1; 3; 3]) = 1 ∧
  ∃ self_p self_q,
    run_policy (T := list Z) LFU (init 1 [1; 1; 2; 1; 3; 3]) = (Ok tt, self_p) ∧
    run_policy (T := list Z) Optimal (init 1 [1; 1; 2; 1; 3; 3]) = (Ok tt, self_q) ∧
    page_faults self_p = page_faults self_q.
Proof.
  split; [reflexivity|].
  apply (single_frame_same_faults (T := list Z) LFU Optimal
           (init 1 [1; 1; 2; 1; 3; 3])).
  reflexivity.
Defined.

(** C8 (as the code has it). The percentage computation is not guarded: on
    an object with an empty reference sequence [display_results] prints the
    heading, the log and the two totals, and then raises
    [ZeroDivisionError] at [page_faults / len(reference_string)]; no
    percentage is printed. *)
Theorem display_results_divides_by_zero algorithm_name (w : Process) :
  reference_string (simulator w) = [] →
  display_results algorithm_name w =
  (Raise ZeroDivisionError,
   mkProcess (simulator w)
     (stdout w ++ report_head algorithm_name (simulator w)) (entered w)).
Proof.
  intros Hrefs. unfold display_results, report_head.
  cbv [mbind SE_bind bind get_simulator print]. rewrite print_entries.
  cbn [simulator stdout entered]. rewrite Hrefs. cbn [length true_div].
  unfold true_div. rewrite bool_decide_eq_true_2 by done.
  cbv [raise]. by rewrite <- !app_assoc.
Qed.

Lemma display_results_divides_by_zero_witness :
  reference_string (simulator (mkProcess (init 3 []) [Banner] [(FIFO, 3)])) = [] ∧
  display_results "FIFO" (mkProcess (init 3 []) [Banner] [(FIFO, 3)]) =
  (Raise ZeroDivisionError,
   mkProcess (init 3 [])
     [Banner; Heading "FIFO"; MetricsHeading; TotalPageFaults 0; TotalPageHits 0]
     [(FIFO, 3)]).
Proof.
  split; [reflexivity|].
  apply (display_results_divides_by_zero "FIFO"
           (mkProcess (init 3 []) [Banner] [(FIFO, 3)])).
  reflexivity.
Defined.

(** C8, the claim as written fails: with an empty reference sequence the
    report is not completed with a percentage of 0, it raises. *)
Lemma percentage_not_guarded :
  length (reference_string (init 3 [])) = 0%nat ∧
  (display_results "FIFO" (mkProcess (init 3 []) [Banner] [(FIFO, 3)])).1
  = Raise ZeroDivisionError.
Proof. split; reflexivity. Qed.

(** C9. With at least one frame and at least as many frames as there are
    distinct pages in the reference sequence, each policy completes with
    a fault count equal to the number of distinct pages, and its log holds
    no replacement entry. *)
Theorem enough_frames_no_eviction {T : Type} `{PySet T} (p : Policy) (self : Simulator) :
  1 ≤ frames self →
  Z.of_nat (distinct (reference_string self)) ≤ frames self →
  ∃ self',
    run_policy (T := T) p self = (Ok tt, self') ∧
    page_faults self' = distinct (reference_string self) ∧
    Forall (λ e, is_replaced e = false) (log self').
Proof.
  intros Hfr Hroom.
  destruct (run_policy_trace (T := T) p self Hfr) as (res' & self' & Hrun & Htr).
  exists self'. split; [done|].
  destruct (trace_no_eviction _ _ _ _ _ [] Htr)
    as (Hcount & entries & Hlog & Hno); [constructor|done|done|].
  simpl in Hcount, Hlog. subst entries. split; [|done].
  change (distinct []) with 0%nat in Hcount. lia.
Qed.

Lemma enough_frames_no_eviction_witness :
  1 ≤ frames (init 3 [1; 2; 1; 3; 2]) ∧
  Z.of_nat (distinct (reference_string (init 3 [1; 2; 1; 3; 2])))
    ≤ frames (init 3 [1; 2; 1; 3; 2]) ∧
  ∃ self',
    run_policy (T := list Z) Optimal (init 3 [1; 2; 1; 3; 2]) = (Ok tt, self') ∧
    page_faults self' = distinct (reference_string (init 3 [1; 2; 1; 3; 2])) ∧
    Forall (λ e, is_replaced e = false) (log self').
Proof.
  split; [simpl; lia|]. split; [vm_compute; discriminate|].
  apply (enough_frames_no_eviction (T := list Z) Optimal (init 3 [1; 2; 1; 3; 2])).
  - simpl; lia.
  - vm_compute; discriminate.
Defined.

(** C10. With zero frames and a non-empty reference sequence, each policy
    raises at its first reference, when it has counted that fault and
    must evict from its empty container: [IndexError] for FIFO,
    [KeyError] for LRU, [ValueError] for LFU and Optimal. Nothing has
    been logged and no result is returned. *)
Theorem zero_frames_raise {T : Type} `{PySet T} (p : Policy) (self : Simulator) page rest :
  frames self = 0 → reference_string self = page :: rest →
  run_policy (T := T) p self =
  (Raise (empty_container_error p), mkSimulator 0 (page :: rest) 1 0 []).
Proof.
  intros Hfr Hrefs.
  rewrite (run_policy_no_frames p self page rest) by (done || lia).
  unfold failed_at_first. by rewrite Hfr, Hrefs.
Qed.

Lemma zero_frames_raise_witness :
  frames (init 0 [7; 0; 1]) = 0 ∧
  reference_string (init 0 [7; 0; 1]) = 7 :: [0; 1] ∧
  run_policy (T := list Z) LRU (init 0 [7; 0; 1]) =
  (Raise KeyError, mkSimulator 0 [7; 0; 1] 1 0 []).
Proof.
  split; [reflexivity|]. split; [reflexivity|].
  apply (zero_frames_raise (T := list Z) LRU (init 0 [7; 0; 1]) 7 [0; 1]);
    reflexivity.
Defined.

(** * Further properties *)

(** ** The inputs of the object are never written *)

Lemma keeps_input_ret {A} (a : A) : keeps_input (ret a).
Proof. by intros self. Qed.

Lemma keeps_input_raise {A} e : keeps_input (raise (A := A) e).
Proof. by intros self. Qed.

Lemma keeps_input_bind {A B} (m : M A) (k : A → M B) :
  keeps_input m → (∀ a, keeps_input (k a)) → keeps_input (bind m k).
Proof.
  intros Hm Hk self. unfold bind. specialize (Hm self).
  destruct (m self) as [[a|e] self1]; simpl in *; [|done].
  destruct (Hk a self1) as [-> ->]. done.
Qed.

Lemma keeps_input_for_each {X A} (body : X → A → M A) xs acc :
  (∀ x a, keeps_input (body x a)) → keeps_input (for_each body xs acc).
Proof.
  intros Hbody. revert acc. induction xs as [|x xs IH]; intros acc.
  - apply keeps_input_ret.
  - cbn [for_each]. by apply keeps_input_bind.
Qed.

Ltac keeps_input :=
  repeat first
    [ apply keeps_input_ret | apply keeps_input_raise
    | apply keeps_input_for_each; intros
    | apply keeps_input_bind; [|intros]
    | solve [by intros ?]
    | progress cbv zeta
    | progress unfold mbind, SE_bind
    | match goal with
      | |- keeps_input (if ?b then _ else _) => destruct b
      | |- keeps_input (match ?o with _ => _ end) => destruct o
      end ].

Lemma fifo_step_keeps_input page queue : keeps_input (fifo_step page queue).
Proof. unfold fifo_step, mbind, SE_bind. keeps_input. Qed.

Lemma lru_step_keeps_input page cache : keeps_input (lru_step page cache).
Proof. unfold lru_step, mbind, SE_bind. keeps_input. Qed.

Lemma lfu_step_keeps_input page st : keeps_input (lfu_step page st).
Proof. unfold lfu_step, mbind, SE_bind. cbv zeta. keeps_input. Qed.

Lemma optimal_step_keeps_input {T : Type} `{PySet T} x (cache : T) :
  keeps_input (optimal_step x cache).
Proof. unfold optimal_step, mbind, SE_bind. cbv zeta. keeps_input. Qed.

Lemma run_policy_keeps_input {T : Type} `{PySet T} (p : Policy) :
  keeps_input (run_policy (T := T) p).
Proof.
  destruct p; cbn [run_policy];
    unfold fifo, lru, lfu, optimal, mbind, SE_bind; keeps_input;
    auto using fifo_step_keeps_input, lru_step_keeps_input,
      lfu_step_keeps_input, optimal_step_keeps_input.
Qed.

(** X1. Whatever a policy does, returning or raising, it leaves the frame
    count and the reference sequence of the object as they were. *)
Theorem policy_keeps_inputs {T : Type} `{PySet T} (p : Policy) (self : Simulator) :
  frames (run_policy (T := T) p self).2 = frames self ∧
  reference_string (run_policy (T := T) p self).2 = reference_string self.
Proof.
  destruct (run_policy_keeps_input (T := T) p self) as [Hfr Hrefs].
  split; [exact Hfr|exact Hrefs].
Qed.

(** ** One policy after another *)

Lemma run_policy_fresh {T : Type} `{PySet T} (p : Policy) self :
  run_policy (T := T) p self = run_policy (T := T) p (fresh self).
Proof. by destruct p. Qed.

Lemma run_policy_after {T : Type} `{PySet T} (p q : Policy) self :
  run_policy (T := T) q (run_policy (T := T) p self).2 =
  run_policy (T := T) q self.
Proof.
  rewrite (run_policy_fresh q (run_policy p self).2), (run_policy_fresh q self).
  f_equal. unfold fresh.
  by destruct (run_policy_keeps_input p self) as [-> ->].
Qed.

(** X2. The outcome of a policy does not depend on what ran before on the
    same object: after any policy [p], returned or raised, policy [q] gives
    the result and leaves the object exactly as it does when run first.
    In particular running a policy twice gives the same counts and log. *)
Theorem policies_do_not_interfere {T : Type} `{PySet T} (p q : Policy)
    (self : Simulator) :
  run_policy (T := T) q (run_policy (T := T) p self).2 =
  run_policy (T := T) q self.
Proof.
  destruct (run_policy_keeps_input (T := T) p self) as [Hfr Hrefs].
  rewrite (run_policy_fresh q (run_policy p self).2), (run_policy_fresh q self).
  unfold fresh. by rewrite Hfr, Hrefs.
Qed.

(** ** When a policy raises *)

Lemma run_policy_no_references {T : Type} `{PySet T} (p : Policy) self :
  reference_string self = [] →
  run_policy (T := T) p self = (Ok tt, fresh self).
Proof.
  intros Hrefs. destruct p; cbn [run_policy];
    unfold fifo, lru, lfu, optimal, fresh; run_step; by rewrite Hrefs.
Qed.

(** X3. A policy returns exactly when there is at least one frame or
    nothing to reference; otherwise (no frame and a first reference) it
    raises. With no reference it returns zero counts and an empty log even
    for a frame count of zero or less. *)
Theorem policy_returns_iff {T : Type} `{PySet T} (p : Policy) (self : Simulator) :
  (∃ self', run_policy (T := T) p self = (Ok tt, self')) ↔
  (1 ≤ frames self ∨ reference_string self = []).
Proof.
  split.
  - intros [self' Hrun].
    destruct (decide (1 ≤ frames self)) as [|Hfr]; [by left|]. right.
    destruct (reference_string self) as [|page rest] eqn:Hrefs; [done|].
    rewrite (run_policy_no_frames p self page rest) in Hrun by (done || lia).
    done.
  - intros [Hfr|Hrefs].
    + destruct (run_policy_trace (T := T) p self Hfr) as (? & self' & Hrun & _).
      by exists self'.
    + exists (fresh self). by apply run_policy_no_references.
Qed.

(** ** What the snapshots hold *)

Lemma trace_frames pages res self res' self' :
  trace pages res self res' self' → frames self' = frames self.
Proof.
  induction 1 as [|page pages res self res1 self1 res2 self2 Htr _ IH]; [done|].
  by rewrite IH, (transition_frames _ _ _ _ _ Htr).
Qed.

Lemma trace_resident_inv pages res self res' self' seen :
  trace pages res self res' self' →
  resident_inv (frames self) res seen →
  resident_inv (frames self) res' (seen ++ pages).
Proof.
  intros Htrace. revert seen.
  induction Htrace as [|page pages res self res1 self1 res2 self2 Htr _ IH];
    intros seen Hinv; [by rewrite app_nil_r|].
  replace (seen ++ page :: pages) with ((seen ++ [page]) ++ pages)
    by (by rewrite <- app_assoc).
  rewrite <- (transition_frames _ _ _ _ _ Htr). apply IH.
  rewrite (transition_frames _ _ _ _ _ Htr).
  by eapply transition_resident_inv.
Qed.

Lemma transition_referenced page res self res' self' :
  transition page res self res' self' → page ∈ res'.
Proof.
  destruct 1 as [Hin Hp|Hin Hlt Hp|victim rest Hin Hge Hres Hp]; rewrite Hp;
    [done|by apply elem_of_cons; left..].
Qed.

Lemma trace_snapshot_contents pages res self res' self' seen :
  trace pages res self res' self' →
  resident_inv (frames self) res seen →
  ∃ snaps,
    snapshots (log self') = snapshots (log self) ++ snaps ∧
    ∀ i state, snaps !! i = Some state →
      NoDup state ∧
      (∃ page, pages !! i = Some page ∧ page ∈ state) ∧
      ∀ q, q ∈ state → q ∈ seen ++ take (S i) pages.
Proof.
  intros Htrace. revert seen.
  induction Htrace as [|page pages res self res1 self1 res2 self2 Htr _ IH];
    intros seen Hinv.
  - exists []. by rewrite app_nil_r.
  - pose proof (transition_resident_inv _ _ _ _ _ seen Htr Hinv) as Hinv1.
    pose proof (transition_frames _ _ _ _ _ Htr) as Hfr.
    destruct (IH (seen ++ [page])) as (snaps & Hsnaps & Hcontents);
      [by rewrite Hfr|].
    exists (res1 :: snaps). split.
    + rewrite Hsnaps, (transition_snapshots _ _ _ _ _ Htr).
      by rewrite <- app_assoc.
    + intros [|i] state Hlook; simpl in Hlook.
      * injection Hlook as <-. destruct Hinv1 as (Hnd & _ & Hsub & _).
        split; [done|]. split; [|done].
        exists page. split; [done|]. by eapply transition_referenced.
      * destruct (Hcontents i state Hlook) as (Hnd & Hpage & Hsub).
        split; [done|]. split; [done|].
        intros q Hq. specialize (Hsub q Hq).
        by rewrite <- app_assoc in Hsub.
Qed.

(** X4. With at least one frame, for each policy every snapshot is
    duplicate-free, holds the page that was just referenced, and holds only
    pages referenced so far. *)
Theorem snapshot_contents {T : Type} `{PySet T} (p : Policy) (self : Simulator) :
  1 ≤ frames self →
  ∃ self',
    run_policy (T := T) p self = (Ok tt, self') ∧
    ∀ i state, snapshots (log self') !! i = Some state →
      NoDup state ∧
      (∃ page, reference_string self !! i = Some page ∧ page ∈ state) ∧
      ∀ q, q ∈ state → q ∈ take (i + 1) (reference_string self).
Proof.
  intros Hfr.
  destruct (run_policy_trace (T := T) p self Hfr) as (res' & self' & Hrun & Htr).
  exists self'. split; [done|].
  destruct (trace_snapshot_contents _ _ _ _ _ [] Htr) as (snaps & Hsnaps & Hc).
  { repeat split; simpl; [constructor|lia|done|]. by intros _ q ?%elem_of_nil. }
  simpl in Hsnaps. subst snaps. intros i state Hlook.
  rewrite Nat.add_1_r. by apply Hc.
Qed.

Lemma snapshot_contents_witness :
  1 ≤ frames (init 2 [1; 2; 3; 1]) ∧
  ∃ self',
    run_policy (T := list Z) FIFO (init 2 [1; 2; 3; 1]) = (Ok tt, self') ∧
    ∀ i state, snapshots (log self') !! i = Some state →
      NoDup state ∧
      (∃ page, [1; 2; 3; 1] !! i = Some page ∧ page ∈ state) ∧
      ∀ q, q ∈ state → q ∈ take (i + 1) [1; 2; 3; 1].
Proof.
  split; [simpl; lia|].
  apply (snapshot_contents (T := list Z) FIFO (init 2 [1; 2; 3; 1])).
  simpl; lia.
Defined.

(** ** Counters and log agree *)

Example faulted_sample :
  faulted [] [1; 2; 1; 3] [[1]; [1; 2]; [1; 2]; [2; 3]] = [1; 2; 3] ∧
  removed_pages [MemoryState [1]; MemoryState [1; 2]; MemoryState [1; 2];
                 Replaced 1 3; MemoryState [2; 3]] = [1].
Proof. split; reflexivity. Qed.

Lemma trace_faulted pages res self res' self' :
  trace pages res self res' self' →
  ∃ snaps,
    snapshots (log self') = snapshots (log self) ++ snaps ∧
    page_faults self' = (page_faults self + length (faulted res pages snaps))%nat.
Proof.
  induction 1 as [|page pages res self res1 self1 res2 self2 Htr _ IH].
  - exists []. rewrite app_nil_r. simpl. split; [done|lia].
  - destruct IH as (snaps & Hsnaps & Hcount).
    exists (res1 :: snaps). split.
    + rewrite Hsnaps, (transition_snapshots _ _ _ _ _ Htr).
      by rewrite <- app_assoc.
    + rewrite Hcount. cbn [faulted]. rewrite length_app.
      destruct Htr as [Hin Hp|Hin Hlt Hp|victim rest Hin Hge Hres Hp];
        cbn [page_faults after_hit after_fault].
      * rewrite (proj2 (contains_true _ _) Hin). simpl. lia.
      * rewrite (proj2 (contains_false _ _) Hin). simpl. lia.
      * rewrite (proj2 (contains_false _ _) Hin). simpl. lia.
Qed.

(** X5. With at least one frame, for each policy the counters agree with
    the log: the fault count is the number of references whose page is not
    in the snapshot before them (none before the first), and the hit count
    is the number of the others. *)
Theorem counters_match_log {T : Type} `{PySet T} (p : Policy) (self : Simulator) :
  1 ≤ frames self →
  ∃ self',
    run_policy (T := T) p self = (Ok tt, self') ∧
    page_faults self' =
      length (faulted [] (reference_string self) (snapshots (log self'))) ∧
    (page_hits self' +
     length (faulted [] (reference_string self) (snapshots (log self'))))%nat
      = length (reference_string self).
Proof.
  intros Hfr.
  destruct (run_policy_trace (T := T) p self Hfr) as (res' & self' & Hrun & Htr).
  exists self'. split; [done|].
  destruct (trace_faulted _ _ _ _ _ Htr) as (snaps & Hsnaps & Hcount).
  simpl in Hsnaps, Hcount. subst snaps.
  pose proof (trace_counts _ _ _ _ _ Htr) as Hsum. simpl in Hsum.
  split; lia.
Qed.

Lemma counters_match_log_witness :
  1 ≤ frames (init 2 [1; 2; 3; 1]) ∧
  ∃ self',
    run_policy (T := list Z) LRU (init 2 [1; 2; 3; 1]) = (Ok tt, self') ∧
    page_faults self' = length (faulted [] [1; 2; 3; 1] (snapshots (log self'))) ∧
    Nat.add (page_hits self')
            (length (faulted [] [1; 2; 3; 1] (snapshots (log self')))) = 4%nat.
Proof.
  split; [simpl; lia|].
  apply (counters_match_log (T := list Z) LRU (init 2 [1; 2; 3; 1])).
  simpl; lia.
Defined.

(** ** Faults that no policy avoids *)

Lemma distinct_snoc_le (seen : list Z) page :
  (distinct (seen ++ [page]) ≤ S (distinct seen))%nat.
Proof.
  destruct (decide (page ∈ seen)).
  - rewrite distinct_snoc_old by done. lia.
  - by rewrite distinct_snoc_new.
Qed.

Lemma trace_first_references pages res self res' self' seen :
  trace pages res self res' self' →
  (∀ q, q ∈ res → q ∈ seen) →
  (page_faults self + distinct (seen ++ pages)
   ≤ page_faults self' + distinct seen)%nat.
Proof.
  intros Htrace. revert seen.
  induction Htrace as [|page pages res self res1 self1 res2 self2 Htr _ IH];
    intros seen Hsub; [rewrite app_nil_r; lia|].
  replace (seen ++ page :: pages) with ((seen ++ [page]) ++ pages)
    by (by rewrite <- app_assoc).
  assert (Hsub1 : ∀ q, q ∈ res1 → q ∈ seen ++ [page]).
  { intros q Hq. apply elem_of_app.
    destruct Htr as [Hin Hp|Hin Hlt Hp|victim rest Hin Hge Hres Hp];
      rewrite Hp in Hq.
    - left. by apply Hsub.
    - apply elem_of_cons in Hq as [->|Hq]; [right; by apply list_elem_of_singleton|].
      left. by apply Hsub.
    - apply elem_of_cons in Hq as [->|Hq]; [right; by apply list_elem_of_singleton|].
      left. apply Hsub. rewrite Hres. by apply elem_of_cons; right. }
  specialize (IH _ Hsub1).
  destruct Htr as [Hin Hp|Hin Hlt Hp|victim rest Hin Hge Hres Hp];
    cbn [page_faults after_hit after_fault] in IH.
  - rewrite distinct_snoc_old in IH by (by apply Hsub). lia.
  - pose proof (distinct_snoc_le seen page). lia.
  - pose proof (distinct_snoc_le seen page). lia.
Qed.

(** X6. With at least one frame, no policy faults fewer times than there
    are distinct pages in the reference sequence: the first reference to
    each page is a fault. *)
Theorem faults_at_least_distinct {T : Type} `{PySet T} (p : Policy)
    (self : Simulator) :
  1 ≤ frames self →
  ∃ self',
    run_policy (T := T) p self = (Ok tt, self') ∧
    (distinct (reference_string self) ≤ page_faults self')%nat.
Proof.
  intros Hfr.
  destruct (run_policy_trace (T := T) p self Hfr) as (res' & self' & Hrun & Htr).
  exists self'. split; [done|].
  pose proof (trace_first_references _ _ _ _ _ [] Htr) as Hle.
  simpl in Hle. change (distinct []) with 0%nat in Hle.
  apply Nat.le_trans with (page_faults self' + 0)%nat; [|lia].
  apply Hle. by intros q ?%elem_of_nil.
Qed.

Lemma faults_at_least_distinct_witness :
  1 ≤ frames (init 1 [1; 2; 1; 2]) ∧
  ∃ self',
    run_policy (T := list Z) LFU (init 1 [1; 2; 1; 2]) = (Ok tt, self') ∧
    Nat.le (distinct [1; 2; 1; 2]) (page_faults self').
Proof.
  split; [simpl; lia|].
  apply (faults_at_least_distinct (T := list Z) LFU (init 1 [1; 2; 1; 2])).
  simpl; lia.
Defined.

(** ** How many evictions *)

Lemma transition_removed page res self res' self' :
  transition page res self res' self' →
  (page_faults self' + length res + length (removed_pages (log self))
   = page_faults self + length res' + length (removed_pages (log self')))%nat ∧
  (length (log self') + length (removed_pages (log self))
   = S (length (log self)) + length (removed_pages (log self')))%nat.
Proof.
  destruct 1 as [Hin Hp|Hin Hlt Hp|victim rest Hin Hge Hres Hp];
    cbn [page_faults log after_hit after_fault]; unfold removed_pages;
    rewrite omap_app, !length_app; apply Permutation_length in Hp;
    try apply Permutation_length in Hres; simpl in *; lia.
Qed.

Lemma trace_removed pages res self res' self' :
  trace pages res self res' self' →
  (page_faults self' + length res + length (removed_pages (log self))
   = page_faults self + length res' + length (removed_pages (log self')))%nat ∧
  (length (log self') + length (removed_pages (log self))
   = length pages + length (log self) + length (removed_pages (log self')))%nat.
Proof.
  induction 1 as [|page pages res self res1 self1 res2 self2 Htr _ IH];
    [simpl; lia|].
  destruct (transition_removed _ _ _ _ _ Htr). simpl. lia.
Qed.

Lemma resident_inv_size fr res seen :
  resident_inv fr res seen →
  Z.of_nat (length res) = Z.min fr (Z.of_nat (distinct seen)).
Proof.
  intros Hinv. pose proof (resident_inv_bounds _ _ _ Hinv) as [Hle Hge].
  destruct Hinv as (Hnd & _ & Hsub & _).
  assert (length res ≤ distinct seen)%nat
    by (rewrite <- (distinct_NoDup res) by done; by apply distinct_mono).
  lia.
Qed.

(** X7. With at least one frame, for each policy the number of replacement
    entries in the log is the fault count minus [min(frames, number of
    distinct pages)], and the log has one entry per reference plus the
    replacement entries. *)
Theorem eviction_count {T : Type} `{PySet T} (p : Policy) (self : Simulator) :
  1 ≤ frames self →
  ∃ self',
    run_policy (T := T) p self = (Ok tt, self') ∧
    Z.of_nat (length (removed_pages (log self'))) =
      Z.of_nat (page_faults self')
      - Z.min (frames self) (Z.of_nat (distinct (reference_string self))) ∧
    length (log self') =
      (length (reference_string self) + length (removed_pages (log self')))%nat.
Proof.
  intros Hfr.
  destruct (run_policy_trace (T := T) p self Hfr) as (res' & self' & Hrun & Htr).
  exists self'. split; [done|].
  destruct (trace_removed _ _ _ _ _ Htr) as [Hfaults Hlen].
  pose proof (trace_resident_inv _ _ _ _ _ [] Htr) as Hinv.
  simpl in Hfaults, Hlen, Hinv.
  apply resident_inv_size in Hinv.
  - split; lia.
  - repeat split; simpl; [constructor|lia|done|]. by intros _ q ?%elem_of_nil.
Qed.

Lemma eviction_count_witness :
  1 ≤ frames (init 2 [1; 2; 3; 1; 2]) ∧
  ∃ self',
    run_policy (T := list Z) FIFO (init 2 [1; 2; 3; 1; 2]) = (Ok tt, self') ∧
    Z.of_nat (length (removed_pages (log self'))) =
      Z.of_nat (page_faults self')
      - Z.min 2 (Z.of_nat (distinct [1; 2; 3; 1; 2])) ∧
    length (log self') = Nat.add 5 (length (removed_pages (log self'))).
Proof.
  split; [simpl; lia|].
  apply (eviction_count (T := list Z) FIFO (init 2 [1; 2; 3; 1; 2])).
  simpl; lia.
Defined.

(** ** FIFO: out in the order of arrival *)

Lemma snapshots_app l1 l2 : snapshots (l1 ++ l2) = snapshots l1 ++ snapshots l2.
Proof. apply omap_app. Qed.

Lemma removed_pages_app l1 l2 :
  removed_pages (l1 ++ l2) = removed_pages l1 ++ removed_pages l2.
Proof. apply omap_app. Qed.

Lemma fifo_step_hit page queue self :
  page ∈ queue →
  fifo_step page queue self = (Ok queue, after_hit self [MemoryState queue]).
Proof.
  intros Hin%contains_true. unfold fifo_step. rewrite Hin. by run_step.
Qed.

Lemma fifo_step_fill page queue self :
  page ∉ queue → Z.of_nat (length queue) < frames self →
  fifo_step page queue self =
  (Ok (queue ++ [page]), after_fault self [MemoryState (queue ++ [page])]).
Proof.
  intros Hin%contains_false Hfree%is_full_false. unfold fifo_step.
  rewrite Hin. run_step. rewrite Hfree. by run_step.
Qed.

Lemma fifo_step_evict page removed rest self :
  page ∉ removed :: rest → frames self ≤ Z.of_nat (length (removed :: rest)) →
  fifo_step page (removed :: rest) self =
  (Ok (rest ++ [page]),
   after_fault self [Replaced removed page; MemoryState (rest ++ [page])]).
Proof.
  intros Hin%contains_false Hfull%is_full_true. unfold fifo_step.
  rewrite Hin. run_step. rewrite Hfull. by run_step.
Qed.

Lemma for_each_fifo_arrivals refs queue self :
  1 ≤ frames self →
  ∃ queue' self' snaps,
    for_each fifo_step refs queue self = (Ok queue', self') ∧
    snapshots (log self') = snapshots (log self) ++ snaps ∧
    default queue (last snaps) = queue' ∧
    removed_pages (log self') ++ queue' =
      removed_pages (log self) ++ queue ++ faulted queue refs snaps.
Proof.
  revert queue self. induction refs as [|page refs IH]; intros queue self Hfr.
  - exists queue, self, []. simpl. by rewrite !app_nil_r.
  - cbn [for_each]. cbv [mbind SE_bind bind].
    destruct (decide (page ∈ queue)) as [Hin|Hin].
    + rewrite fifo_step_hit by done.
      destruct (IH queue (after_hit self [MemoryState queue]) Hfr)
        as (queue' & self' & snaps & -> & Hsnaps & Hlast & Hout).
      exists queue', self', (queue :: snaps). split; [done|].
      cbn [log after_hit] in Hsnaps, Hout. rewrite snapshots_app in Hsnaps. rewrite removed_pages_app in Hout.
      simpl in Hsnaps, Hout.
      rewrite <- app_assoc in Hsnaps. rewrite app_nil_r in Hout.
      split; [done|]. split.
      * rewrite last_cons. by destruct (last snaps).
      * cbn [faulted]. by rewrite (proj2 (contains_true _ _) Hin).
    + destruct (decide (frames self ≤ Z.of_nat (length queue))) as [Hfull|Hfree].
      * destruct queue as [|removed rest]; [simpl in Hfull; lia|].
        rewrite fifo_step_evict by done.
        destruct (IH (rest ++ [page])
                    (after_fault self [Replaced removed page;
                                       MemoryState (rest ++ [page])]) Hfr)
          as (queue' & self' & snaps & -> & Hsnaps & Hlast & Hout).
        exists queue', self', ((rest ++ [page]) :: snaps). split; [done|].
        cbn [log after_fault] in Hsnaps, Hout. rewrite snapshots_app in Hsnaps. rewrite removed_pages_app in Hout.
        simpl in Hsnaps, Hout.
        rewrite <- app_assoc in Hsnaps.
        split; [done|]. split.
        -- rewrite last_cons. by destruct (last snaps).
        -- cbn [faulted]. rewrite (proj2 (contains_false _ _) Hin).
           rewrite Hout. by rewrite <- !app_assoc.
      * rewrite fifo_step_fill by (done || lia).
        destruct (IH (queue ++ [page])
                    (after_fault self [MemoryState (queue ++ [page])]) Hfr)
          as (queue' & self' & snaps & -> & Hsnaps & Hlast & Hout).
        exists queue', self', ((queue ++ [page]) :: snaps). split; [done|].
        cbn [log after_fault] in Hsnaps, Hout. rewrite snapshots_app in Hsnaps. rewrite removed_pages_app in Hout.
        simpl in Hsnaps, Hout.
        rewrite <- app_assoc in Hsnaps. rewrite app_nil_r in Hout.
        split; [done|]. split.
        -- rewrite last_cons. by destruct (last snaps).
        -- cbn [faulted]. rewrite (proj2 (contains_false _ _) Hin).
           rewrite Hout. by rewrite <- !app_assoc.
Qed.

(** X8. With at least one frame, FIFO evicts pages in the order in which
    they were brought in: the evicted pages, in the order of the
    replacement entries, followed by the final memory state, are exactly
    the faulting references in their order. A hit changes nothing in
    that order. *)
Theorem fifo_evicts_in_arrival_order (self : Simulator) :
  1 ≤ frames self →
  ∃ self',
    fifo self = (Ok tt, self') ∧
    removed_pages (log self') ++ default [] (last (snapshots (log self'))) =
      faulted [] (reference_string self) (snapshots (log self')).
Proof.
  intros Hfr.
  destruct (for_each_fifo_arrivals (reference_string self) [] (fresh self) Hfr)
    as (queue' & self' & snaps & Hrun & Hsnaps & Hlast & Hout).
  exists self'. split.
  - unfold fifo. run_step. fold (fresh self). by rewrite Hrun.
  - simpl in Hsnaps, Hout. by rewrite Hsnaps, Hlast.
Qed.

Lemma fifo_evicts_in_arrival_order_witness :
  1 ≤ frames (init 2 [1; 2; 1; 3; 4]) ∧
  ∃ self',
    fifo (init 2 [1; 2; 1; 3; 4]) = (Ok tt, self') ∧
    removed_pages (log self') ++ default [] (last (snapshots (log self'))) =
      faulted [] [1; 2; 1; 3; 4] (snapshots (log self')).
Proof.
  split; [simpl; lia|].
  apply (fifo_evicts_in_arrival_order (init 2 [1; 2; 1; 3; 4])).
  simpl; lia.
Defined.

(** ** LRU: the most recently used pages, in order of last use *)

Example recency_sample :
  recency [1; 2; 1; 3; 2] = [1; 3; 2] ∧
  most_recent 2 (recency [1; 2; 1; 3; 2]) = [3; 2] ∧
  most_recent 5 (recency [1; 2; 1; 3; 2]) = [1; 3; 2].
Proof. repeat split; reflexivity. Qed.

Lemma lru_step_hit page cache self :
  page ∈ cache →
  lru_step page cache self =
  (Ok (move_to_end page cache),
   after_hit self [MemoryState (move_to_end page cache)]).
Proof.
  intros Hin%contains_true. unfold lru_step. rewrite Hin. by run_step.
Qed.

Lemma lru_step_fill page cache self :
  page ∉ cache → Z.of_nat (length cache) < frames self →
  lru_step page cache self =
  (Ok (cache ++ [page]), after_fault self [MemoryState (cache ++ [page])]).
Proof.
  intros Hin%contains_false Hfree%is_full_false. unfold lru_step, od_setitem.
  rewrite Hin. run_step. rewrite Hfree. run_step. by rewrite Hin.
Qed.

Lemma lru_step_evict page removed rest self :
  page ∉ removed :: rest → frames self ≤ Z.of_nat (length (removed :: rest)) →
  lru_step page (removed :: rest) self =
  (Ok (rest ++ [page]),
   after_fault self [Replaced removed page; MemoryState (rest ++ [page])]).
Proof.
  intros Hin Hfull%is_full_true. unfold lru_step, od_setitem.
  rewrite (proj2 (contains_false _ _) Hin). run_step. rewrite Hfull. run_step.
  apply not_elem_of_cons in Hin as [_ Hin%contains_false]. by rewrite Hin.
Qed.

Lemma recency_snoc seen page :
  recency (seen ++ [page]) = filter (λ q, q ≠ page) (recency seen) ++ [page].
Proof.
  unfold recency. induction seen as [|x seen IH]; [done|].
  cbn [app remove_dups]. rewrite IH.
  destruct (decide_rel elem_of x (seen ++ [page])) as [Hx|Hx];
    destruct (decide_rel elem_of x seen) as [Hx'|Hx']; try done.
  - apply elem_of_app in Hx as [?| ->%list_elem_of_singleton]; [done|].
    rewrite filter_cons, decide_False; [done|]. by intros Hc.
  - exfalso. apply Hx, elem_of_app. by left.
  - rewrite filter_cons, decide_True; [done|].
    intros ->. apply Hx, elem_of_app. right. by apply list_elem_of_singleton.
Qed.

Lemma most_recent_suffix n (a cache : list Z) :
  (length cache ≤ n)%nat → a = [] ∨ length cache = n →
  most_recent n (a ++ cache) = cache.
Proof.
  intros Hle [->|Hlen]; unfold most_recent.
  - simpl. by replace (length cache - n)%nat with 0%nat by lia.
  - rewrite length_app.
    replace (length a + length cache - n)%nat with (length a) by lia.
    by rewrite drop_app_length.
Qed.

Lemma filter_ne_length (page : Z) (l : list Z) :
  NoDup l → page ∈ l → S (length (filter (λ q, q ≠ page) l)) = length l.
Proof.
  intros Hnd Hin. by rewrite <- (Permutation_length (filter_ne_present _ _ Hnd Hin)).
Qed.

(** The cache holds the end of the recency order of the references [seen],
    and all of it as long as it is not full. *)
Lemma for_each_lru_recency refs cache self seen a :
  1 ≤ frames self →
  recency seen = a ++ cache →
  (length cache ≤ Z.to_nat (frames self))%nat →
  a = [] ∨ length cache = Z.to_nat (frames self) →
  ∃ cache' self' snaps,
    for_each lru_step refs cache self = (Ok cache', self') ∧
    snapshots (log self') = snapshots (log self) ++ snaps ∧
    (∀ i state, snaps !! i = Some state →
       state = most_recent (Z.to_nat (frames self))
                 (recency (seen ++ take (S i) refs))) ∧
    page_faults self' =
      (page_faults self + lru_faults (Z.to_nat (frames self)) seen refs)%nat.
Proof.
  revert cache self seen a.
  induction refs as [|page refs IH]; intros cache self seen a Hfr Hrec Hle Hfull.
  - exists cache, self, []. simpl. rewrite app_nil_r. repeat split; [done|lia].
  - assert (Hnd : NoDup (a ++ cache))
      by (rewrite <- Hrec; apply NoDup_remove_dups).
    apply NoDup_app in Hnd as (Hnda & Hdisj & Hndc).
    pose proof (recency_snoc seen page) as Hsnoc.
    rewrite Hrec, filter_app in Hsnoc.
    cbn [for_each lru_faults]. cbv [mbind SE_bind bind].
    rewrite Hrec, (most_recent_suffix _ a cache Hle Hfull).
    assert (Hnext : ∀ cache' self1 a',
      frames self1 = frames self → page_faults self1 =
        (page_faults self + if contains page cache then 0 else 1)%nat →
      snapshots (log self1) = snapshots (log self) ++ [cache'] →
      recency (seen ++ [page]) = a' ++ cache' →
      (length cache' ≤ Z.to_nat (frames self))%nat →
      a' = [] ∨ length cache' = Z.to_nat (frames self) →
      ∃ cache2 self2 snaps,
        for_each lru_step refs cache' self1 = (Ok cache2, self2) ∧
        snapshots (log self2) = snapshots (log self) ++ snaps ∧
        (∀ i state, snaps !! i = Some state →
           state = most_recent (Z.to_nat (frames self))
                     (recency (seen ++ take (S i) (page :: refs)))) ∧
        page_faults self2 =
          (page_faults self + ((if contains page cache then 0 else 1)
           + lru_faults (Z.to_nat (frames self)) (seen ++ [page]) refs))%nat).
    { intros cache' self1 a' Hfr1 Hcount1 Hsnap1 Hrec' Hle' Hfull'.
      destruct (IH cache' self1 (seen ++ [page]) a')
        as (cache2 & self2 & snaps & Hloop & Hsnaps & Hstates & Hcount);
        rewrite ?Hfr1; [done..|].
      rewrite Hfr1 in Hstates, Hcount.
      exists cache2, self2, (cache' :: snaps). split; [done|].
      split; [by rewrite Hsnaps, Hsnap1, <- app_assoc|].
      split; [|rewrite Hcount, Hcount1; lia].
      intros [|i] state Hlook; simpl in Hlook.
      - injection Hlook as <-. cbn [firstn]. rewrite take_0.
        by rewrite Hrec', (most_recent_suffix _ a' cache' Hle' Hfull').
      - rewrite (Hstates i state Hlook). by rewrite <- app_assoc. }
    destruct (decide (page ∈ cache)) as [Hin|Hin].
    + rewrite lru_step_hit by done.
      apply (Hnext _ _ a); cbn [frames page_faults log after_hit].
      * done.
      * rewrite (proj2 (contains_true _ _) Hin). lia.
      * by rewrite snapshots_app.
      * rewrite Hsnoc, (filter_ne_absent page a), <- app_assoc; [done|].
        intros Ha. by apply (Hdisj page).
      * unfold move_to_end. rewrite length_app. simpl.
        pose proof (filter_ne_length page cache Hndc Hin). lia.
      * destruct Hfull as [->|Hlen]; [by left|right].
        unfold move_to_end. rewrite length_app. simpl.
        pose proof (filter_ne_length page cache Hndc Hin). lia.
    + rewrite (filter_ne_absent page cache) in Hsnoc by done.
      destruct (decide (frames self ≤ Z.of_nat (length cache))) as [Hfl|Hfree].
      * destruct cache as [|removed rest]; [simpl in Hfl; lia|].
        rewrite lru_step_evict by done.
        apply (Hnext _ _ (filter (λ q, q ≠ page) a ++ [removed]));
          cbn [frames page_faults log after_fault].
        -- done.
        -- rewrite (proj2 (contains_false _ _) Hin). lia.
        -- by rewrite snapshots_app.
        -- rewrite Hsnoc. by rewrite <- !app_assoc.
        -- rewrite length_app. simpl in *. lia.
        -- right. rewrite length_app. simpl in *. lia.
      * rewrite lru_step_fill by (done || lia).
        assert (a = []) as -> by (destruct Hfull as [|Hlen]; [done|lia]).
        apply (Hnext _ _ []); cbn [frames page_faults log after_fault].
        -- done.
        -- rewrite (proj2 (contains_false _ _) Hin). lia.
        -- by rewrite snapshots_app.
        -- by rewrite Hsnoc.
        -- rewrite length_app. simpl. lia.
        -- by left.
Qed.

Lemma lru_recency self :
  1 ≤ frames self →
  ∃ self',
    lru self = (Ok tt, self') ∧
    (∀ i state, snapshots (log self') !! i = Some state →
       state = most_recent (Z.to_nat (frames self))
                 (recency (take (S i) (reference_string self)))) ∧
    page_faults self' =
      lru_faults (Z.to_nat (frames self)) [] (reference_string self).
Proof.
  intros Hfr.
  destruct (for_each_lru_recency (reference_string self) [] (fresh self) [] [])
    as (cache' & self' & snaps & Hrun & Hsnaps & Hstates & Hcount);
    [done|done|simpl; lia|by left|].
  exists self'. split.
  - unfold lru. run_step. fold (fresh self). by rewrite Hrun.
  - simpl in Hsnaps, Hcount, Hstates. subst snaps. by split.
Qed.

(** X9. With at least one frame, after each reference the LRU cache is the
    list of the [frames] most recently used distinct pages (all of them
    while there are fewer), ordered from least to most recently used. *)
Theorem lru_keeps_most_recent (self : Simulator) :
  1 ≤ frames self →
  ∃ self',
    lru self = (Ok tt, self') ∧
    ∀ i state, snapshots (log self') !! i = Some state →
      state = most_recent (Z.to_nat (frames self))
                (recency (take (i + 1) (reference_string self))).
Proof.
  intros Hfr. destruct (lru_recency self Hfr) as (self' & Hrun & Hstates & _).
  exists self'. split; [done|]. intros i state Hlook.
  rewrite Nat.add_1_r. by apply Hstates.
Qed.

Lemma lru_keeps_most_recent_witness :
  1 ≤ frames (init 2 [1; 2; 1; 3]) ∧
  ∃ self',
    lru (init 2 [1; 2; 1; 3]) = (Ok tt, self') ∧
    ∀ i state, snapshots (log self') !! i = Some state →
      state = most_recent 2 (recency (take (i + 1) [1; 2; 1; 3])).
Proof.
  split; [simpl; lia|].
  apply (lru_keeps_most_recent (init 2 [1; 2; 1; 3])). simpl; lia.
Defined.

(** ** LRU: more frames, no more faults *)

Lemma most_recent_mono n m (l : list Z) q :
  (n ≤ m)%nat → q ∈ most_recent n l → q ∈ most_recent m l.
Proof.
  intros Hle. unfold most_recent.
  replace (length l - n)%nat
    with ((length l - m) + ((length l - n) - (length l - m)))%nat by lia.
  rewrite <- drop_drop. apply subseteq_drop.
Qed.

Lemma lru_faults_mono n m seen refs :
  (n ≤ m)%nat → (lru_faults m seen refs ≤ lru_faults n seen refs)%nat.
Proof.
  intros Hle. revert seen. induction refs as [|page refs IH]; intros seen; [done|].
  cbn [lru_faults]. specialize (IH (seen ++ [page])).
  destruct (contains page (most_recent n (recency seen))) eqn:Hn.
  - apply contains_true, (most_recent_mono n m) in Hn; [|done].
    apply contains_true in Hn. rewrite Hn. lia.
  - destruct (contains page (most_recent m (recency seen))); lia.
Qed.

(** X10. LRU has no Belady anomaly: on the same reference sequence, a run
    with more frames never counts more faults than a run with fewer (at
    least one). *)
Theorem lru_more_frames_no_more_faults (frames1 frames2 : Z) (refs : list Z) :
  1 ≤ frames1 → frames1 ≤ frames2 →
  ∃ self1 self2,
    lru (init frames1 refs) = (Ok tt, self1) ∧
    lru (init frames2 refs) = (Ok tt, self2) ∧
    (page_faults self2 ≤ page_faults self1)%nat.
Proof.
  intros Hfr1 Hle.
  destruct (lru_recency (init frames1 refs)) as (self1 & Hrun1 & _ & Hcount1);
    [done|].
  destruct (lru_recency (init frames2 refs)) as (self2 & Hrun2 & _ & Hcount2);
    [simpl; lia|].
  exists self1, self2. split; [done|]. split; [done|].
  rewrite Hcount1, Hcount2. apply lru_faults_mono. simpl. lia.
Qed.

Lemma lru_more_frames_no_more_faults_witness :
  1 ≤ 3 ∧ 3 ≤ 4 ∧
  ∃ self1 self2,
    lru (init 3 [1; 2; 3; 4; 1; 2; 5; 1; 2; 3; 4; 5]) = (Ok tt, self1) ∧
    lru (init 4 [1; 2; 3; 4; 1; 2; 5; 1; 2; 3; 4; 5]) = (Ok tt, self2) ∧
    Nat.le (page_faults self2) (page_faults self1).
Proof.
  split; [lia|]. split; [lia|].
  apply (lru_more_frames_no_more_faults 3 4
           [1; 2; 3; 4; 1; 2; 5; 1; 2; 3; 4; 5]); lia.
Defined.

(** FIFO gives no such guarantee: on this sequence four frames fault more
    often than three. *)
Example fifo_anomaly :
  page_faults (fifo (init 3 [1; 2; 3; 4; 1; 2; 5; 1; 2; 3; 4; 5])).2 = 9%nat ∧
  page_faults (fifo (init 4 [1; 2; 3; 4; 1; 2; 5; 1; 2; 3; 4; 5])).2 = 10%nat.
Proof. split; reflexivity. Qed.

(** ** Optimal: which page goes *)

Section FirstExtremum.
Context {A K : Type} (better : K → K → bool) (key : A → K).
Hypothesis better_trans :
  ∀ a b c, better a b = true → better b c = true → better a c = true.
Hypothesis better_neg_trans :
  ∀ a b c, better a b = false → better b c = false → better a c = false.

Lemma pick_first best l :
  ∃ l1 l2,
    best :: l = l1 ++ pick better key best l :: l2 ∧
    (∀ x, x ∈ l1 → better (key (pick better key best l)) (key x) = true) ∧
    (∀ x, x ∈ l2 → better (key x) (key (pick better key best l)) = false).
Proof.
  revert best. induction l as [|y l IH]; intros best.
  - exists [], []. simpl. split; [done|]. split; by intros x ?%elem_of_nil.
  - cbn [pick]. destruct (better (key y) (key best)) eqn:Hy.
    + destruct (IH y) as (l1 & l2 & Hsplit & Hbefore & Hafter).
      exists (best :: l1), l2. split; [by rewrite Hsplit|]. split; [|done].
      intros x [->|Hx]%elem_of_cons; [|by apply Hbefore].
      destruct l1 as [|z l1]; simpl in Hsplit.
      * injection Hsplit as Hr _. by rewrite <- Hr.
      * injection Hsplit as <- _. apply (better_trans _ (key y)); [|done].
        apply Hbefore. by apply elem_of_cons; left.
    + destruct (IH best) as (l1 & l2 & Hsplit & Hbefore & Hafter).
      destruct l1 as [|z l1]; simpl in Hsplit.
      * injection Hsplit as Hr Hl. exists [], (y :: l2).
        split; [simpl; by rewrite <- Hr, Hl|]. split; [by intros x ?%elem_of_nil|].
        intros x [->|Hx]%elem_of_cons; [by rewrite <- Hr|by apply Hafter].
      * injection Hsplit as <- Hl. exists (best :: y :: l1), l2.
        split; [simpl; do 2 f_equal; exact Hl|]. split; [|done].
        assert (Hbest : better (key (pick better key best l)) (key best) = true)
          by (apply Hbefore; by apply elem_of_cons; left).
        intros x [->|[->|Hx]%elem_of_cons]%elem_of_cons; [done| |].
        -- destruct (better (key (pick better key best l)) (key y)) eqn:Hc; [done|].
           by rewrite (better_neg_trans _ _ _ Hc Hy) in Hbest.
        -- apply Hbefore. by apply elem_of_cons; right.
Qed.

Lemma py_select_first l r :
  py_select better key l = Some r →
  ∃ l1 l2,
    l = l1 ++ r :: l2 ∧
    (∀ x, x ∈ l1 → better (key r) (key x) = true) ∧
    (∀ x, x ∈ l2 → better (key x) (key r) = false).
Proof.
  destruct l as [|y l]; simpl; [done|]. intros [= <-]. apply pick_first.
Qed.
End FirstExtremum.

Lemma index_None p l : index p l = None ↔ p ∉ l.
Proof.
  induction l as [|x l IH]; simpl; [split; [intros _; apply not_elem_of_nil|done]|].
  case_bool_decide as Hx.
  - split; [done|]. intros Hn. exfalso. apply Hn. subst. by apply elem_of_cons; left.
  - rewrite not_elem_of_cons, <- IH. destruct (index p l); simpl; naive_solver.
Qed.

(** [index] is the position of the first occurrence. *)
Lemma index_Some p l n :
  index p l = Some n ↔ l !! n = Some p ∧ ∀ j, (j < n)%nat → l !! j ≠ Some p.
Proof.
  revert n. induction l as [|x l IH]; intros n; simpl.
  - split; [done|]. by intros [? _].
  - case_bool_decide as Hx.
    + subst x. split.
      * intros [= <-]. split; [done|]. intros j ?. lia.
      * intros [Hn Hfirst]. destruct n as [|n]; [done|].
        exfalso. by apply (Hfirst 0%nat); [lia|].
    + destruct n as [|n].
      * split; [by destruct (index p l)|]. intros [[= ?] _]. done.
      * split.
        -- destruct (index p l) as [m|]; [|done]. simpl. intros [= <-].
           destruct (proj1 (IH m) eq_refl) as [Hm Hfirst]. split; [done|].
           intros [|j] ?; simpl; [by intros [= ?]|]. apply Hfirst. lia.
        -- intros [Hn Hfirst]. simpl in Hn.
           assert (index p l = Some n) as ->; [|done].
           apply IH. split; [done|]. intros j ?. apply (Hfirst (S j)). lia.
Qed.

Lemma future_index_index p future :
  future_index p future =
  match index p future with Some n => Finite n | None => Infinity end.
Proof.
  unfold future_index. destruct (contains p future) eqn:Hin; [done|].
  apply contains_false, index_None in Hin. by rewrite Hin.
Qed.

Lemma distance_gt_sooner q v future :
  distance_gt (future_index v future) (future_index q future) = true →
  used_sooner q v future.
Proof.
  rewrite !future_index_index. unfold used_sooner.
  destruct (index v future) as [n|], (index q future) as [m|]; simpl; try done.
  - intros Hlt%bool_decide_eq_true. exists m. split; [done|]. by intros ? [= <-].
  - intros _. exists m. split; [done|]. by intros ? [=].
Qed.

Lemma distance_gt_no_later q v future :
  distance_gt (future_index q future) (future_index v future) = false →
  used_no_later q v future.
Proof.
  rewrite !future_index_index. unfold used_no_later.
  destruct (index v future) as [n|], (index q future) as [m|]; simpl; try done.
  intros Hle%bool_decide_eq_false n' [= <-]. exists m. split; [done|lia].
Qed.

(** X11. A fault of [optimal] with a full frame set (at least one frame).
    The evicted page is resident. Pages that come before it in the
    iteration order of the set are all referenced again, and sooner than
    it; pages that come after it are referenced no later than it. So the
    page evicted is the first one, in iteration order, among those whose
    next reference is farthest (a page never referenced again counting as
    farthest). The replacement is logged and the incoming page added. *)
Theorem optimal_evicts_farthest {T : Type} `{PySet T} (i : nat) (page : Z)
    (cache : T) (self : Simulator) :
  1 ≤ frames self →
  page ∉ set_iter cache →
  frames self ≤ Z.of_nat (length (set_iter cache)) →
  ∃ before victim after,
    set_iter cache = before ++ victim :: after ∧
    (∀ q, q ∈ before →
       used_sooner q victim (drop (i + 1) (reference_string self))) ∧
    (∀ q, q ∈ after →
       used_no_later q victim (drop (i + 1) (reference_string self))) ∧
    optimal_step (i, page) cache self =
    (Ok (set_add page (set_remove victim cache)),
     after_fault self
       [Replaced victim page;
        MemoryState (set_iter (set_add page (set_remove victim cache)))]).
Proof.
  intros Hfr Hin%contains_false Hfull%is_full_true.
  unfold optimal_step. cbn [fst snd]. rewrite Hin. run_step. rewrite Hfull.
  run_step.
  set (future := drop (i + 1) (reference_string self)).
  set (future_indices := (λ p, (p, future_index p future)) <$> set_iter cache).
  destruct (py_select_is_Some distance_gt snd future_indices)
    as [[victim d] Hsel].
  { subst future_indices. apply is_full_true in Hfull.
    destruct (set_iter cache); [simpl in Hfull; lia|done]. }
  rewrite Hsel. run_step.
  destruct (py_select_first distance_gt snd distance_gt_trans
              distance_gt_neg_trans _ _ Hsel)
    as (l1 & l2 & Hsplit & Hbefore & Hafter).
  exists l1.*1, victim, l2.*1. split; [|split; [|split; [|done]]].
  - assert (Hkeys : future_indices.*1 = set_iter cache).
    { subst future_indices. clear.
      induction (set_iter cache) as [|?? IH]; [done|]. simpl. f_equal. exact IH. }
    by rewrite <- Hkeys, Hsplit, fmap_app.
  - intros q [[q' dq] [-> Hq]]%list_elem_of_fmap. simpl.
    assert (Hq' : (q', dq) ∈ future_indices)
      by (rewrite Hsplit; apply elem_of_app; by left).
    assert (Hv : (victim, d) ∈ future_indices)
      by (rewrite Hsplit; apply elem_of_app; right; by apply elem_of_cons; left).
    apply list_elem_of_fmap in Hq' as (? & [= <- ->] & _).
    apply list_elem_of_fmap in Hv as (? & [= <- Hd] & _).
    apply distance_gt_sooner. rewrite <- Hd. by apply (Hbefore _ Hq).
  - intros q [[q' dq] [-> Hq]]%list_elem_of_fmap. simpl.
    assert (Hq' : (q', dq) ∈ future_indices)
      by (rewrite Hsplit; apply elem_of_app; right; by apply elem_of_cons; right).
    assert (Hv : (victim, d) ∈ future_indices)
      by (rewrite Hsplit; apply elem_of_app; right; by apply elem_of_cons; left).
    apply list_elem_of_fmap in Hq' as (? & [= <- ->] & _).
    apply list_elem_of_fmap in Hv as (? & [= <- Hd] & _).
    apply distance_gt_no_later. rewrite <- Hd. by apply (Hafter _ Hq).
Qed.

Lemma optimal_evicts_farthest_witness :
  1 ≤ frames (mkSimulator 3 [1; 2; 3; 4; 1; 2; 5] 3 0
                [MemoryState [1]; MemoryState [1; 2]; MemoryState [1; 2; 3]]) ∧
  (4 ∉ set_iter (T := list Z) [1; 2; 3]) ∧
  3 ≤ Z.of_nat (length (set_iter (T := list Z) [1; 2; 3])) ∧
  ∃ before victim after,
    set_iter (T := list Z) [1; 2; 3] = before ++ victim :: after ∧
    (∀ q, q ∈ before → used_sooner q victim (drop (3 + 1) [1; 2; 3; 4; 1; 2; 5])) ∧
    (∀ q, q ∈ after → used_no_later q victim (drop (3 + 1) [1; 2; 3; 4; 1; 2; 5])) ∧
    optimal_step (3%nat, 4) [1; 2; 3]
      (mkSimulator 3 [1; 2; 3; 4; 1; 2; 5] 3 0
         [MemoryState [1]; MemoryState [1; 2]; MemoryState [1; 2; 3]]) =
    (Ok (set_add 4 (set_remove victim [1; 2; 3])),
     after_fault
       (mkSimulator 3 [1; 2; 3; 4; 1; 2; 5] 3 0
          [MemoryState [1]; MemoryState [1; 2]; MemoryState [1; 2; 3]])
       [Replaced victim 4;
        MemoryState (set_iter (set_add 4 (set_remove victim [1; 2; 3])))]).
Proof.
  split; [simpl; lia|].
  split; [apply (bool_decide_unpack _); by vm_compute|].
  split; [simpl; lia|].
  apply (optimal_evicts_farthest (T := list Z) 3 4 [1; 2; 3]
           (mkSimulator 3 [1; 2; 3; 4; 1; 2; 5] 3 0
              [MemoryState [1]; MemoryState [1; 2]; MemoryState [1; 2; 3]])).
  - simpl; lia.
  - apply (bool_decide_unpack _); by vm_compute.
  - simpl; lia.
Defined.

(** ** LFU: what the counter counts *)

Lemma lfu_step_returns page cache frequency self :
  1 ≤ frames self →
  ∃ cache' self',
    lfu_step page (cache, frequency) self
    = (Ok (cache', counter_incr page frequency), self') ∧
    frames self' = frames self.
Proof.
  intros Hfr. destruct (decide (page ∈ cache.*1)) as [Hin|Hin].
  - eexists _, _. split; [by apply lfu_step_hit|done].
  - destruct (decide (frames self ≤ Z.of_nat (length cache))) as [Hfull|Hfree].
    + destruct (py_select_is_Some tuple_lt
        (λ kv : Z * nat, (counter_incr page frequency !!! kv.1, kv.2)) cache)
        as [[victim tag] Hsel]; [destruct cache; [simpl in Hfull; lia|done]|].
      eexists _, _.
      split; [apply (lfu_step_evict _ _ _ _ victim);
              [done..|unfold lfu_least_used; by rewrite Hsel]|done].
    + eexists _, _. split; [apply lfu_step_fill; [done|lia]|done].
Qed.

Lemma lfu_loop_returns refs cache frequency self :
  1 ≤ frames self →
  ∃ cache' frequency' self',
    for_each lfu_step refs (cache, frequency) self
    = (Ok (cache', frequency'), self').
Proof.
  revert cache frequency self.
  induction refs as [|page refs IH]; intros cache frequency self Hfr.
  - by exists cache, frequency, self.
  - destruct (lfu_step_returns page cache frequency self Hfr)
      as (cache1 & self1 & Hstep & Hfr1).
    destruct (IH cache1 (counter_incr page frequency) self1)
      as (cache' & frequency' & self' & Hloop); [by rewrite Hfr1|].
    exists cache', frequency', self'.
    cbn [for_each]. cbv [mbind SE_bind bind]. by rewrite Hstep.
Qed.

(** X12. Along the LFU loop (at least one frame) the counter of every page
    grows by the number of references to that page, hits and faults alike;
    an eviction does not reset it, so a page that comes back is compared
    with all its earlier references counted. *)
Theorem lfu_counts_every_reference (refs : list Z) (cache : list (Z * nat))
    (frequency : gmap Z nat) (self : Simulator) :
  1 ≤ frames self →
  ∃ cache' frequency' self',
    for_each lfu_step refs (cache, frequency) self
    = (Ok (cache', frequency'), self') ∧
    ∀ k, frequency' !!! k
         = (frequency !!! k + length (filter (λ q, q = k) refs))%nat.
Proof.
  revert cache frequency self.
  induction refs as [|page refs IH]; intros cache frequency self Hfr.
  - exists cache, frequency, self. split; [done|]. intros k. simpl. lia.
  - destruct (lfu_step_returns page cache frequency self Hfr)
      as (cache1 & self1 & Hstep & Hfr1).
    destruct (IH cache1 (counter_incr page frequency) self1)
      as (cache' & frequency' & self' & Hloop & Hcount); [by rewrite Hfr1|].
    exists cache', frequency', self'. split.
    + cbn [for_each]. cbv [mbind SE_bind bind]. by rewrite Hstep.
    + intros k. rewrite Hcount, filter_cons.
      destruct (decide (page = k)) as [->|Hne].
      * rewrite counter_incr_same. simpl. lia.
      * rewrite counter_incr_other by done. lia.
Qed.

Lemma lfu_counts_every_reference_witness :
  1 ≤ frames (init 1 [1; 2; 1]) ∧
  ∃ cache' frequency' self',
    for_each lfu_step [1; 2; 1] ([], ∅) (init 1 [1; 2; 1])
    = (Ok (cache', frequency'), self') ∧
    ∀ k, frequency' !!! k
         = Nat.add ((∅ : gmap Z nat) !!! k)
                   (length (filter (λ q, q = k) [1; 2; 1])).
Proof.
  split; [simpl; lia|].
  apply (lfu_counts_every_reference [1; 2; 1] [] ∅ (init 1 [1; 2; 1])).
  simpl; lia.
Defined.

(** ** LFU: one page to evict *)

(** X13. In a run of the LFU loop from the empty cache and the empty log
    (at least one frame), the tags of the resident pages grow strictly
    along the insertion order and are positions already taken in the log.
    So no two resident pages share a tag, and the page that [min] selects
    for eviction is the only minimum: every other resident page has a
    larger frequency, or the same frequency and a larger tag. *)
Theorem lfu_tags_increase (refs : list Z) (self : Simulator) :
  1 ≤ frames self →
  ∃ cache' frequency' self',
    for_each lfu_step refs ([], ∅) (fresh self)
    = (Ok (cache', frequency'), self') ∧
    lfu_tags_ok cache' self' ∧
    (∀ x y, x ∈ cache' → y ∈ cache' → x.2 = y.2 → x = y) ∧
    ∀ (frequency : gmap Z nat) victim,
      lfu_least_used frequency cache' = Some victim →
      ∃ tag, (victim, tag) ∈ cache' ∧
        ∀ k t, (k, t) ∈ cache' → (k, t) ≠ (victim, tag) →
          (frequency !!! victim < frequency !!! k)%nat ∨
          (frequency !!! victim = frequency !!! k ∧ (tag < t)%nat).
Proof.
  intros Hfr.
  destruct (lfu_loop_returns refs [] ∅ (fresh self) Hfr)
    as (cache' & frequency' & self' & Hloop).
  exists cache', frequency', self'. split; [done|].
  assert (Hok : lfu_tags_ok cache' self').
  { apply (lfu_loop_keeps_tags _ _ _ _ _ Hloop). split; constructor. }
  split; [done|]. split.
  - intros x y. apply tags_identify. by destruct Hok.
  - intros frequency victim Hsel.
    destruct (lfu_least_used_strict _ _ _ _ Hok Hsel) as (tag & Htag & Hmin).
    exists tag. split; [done|]. intros k t Hk Hne.
    specialize (Hmin k t Hk Hne). unfold tuple_lt in Hmin.
    apply bool_decide_eq_true in Hmin. simpl in Hmin. lia.
Qed.

Lemma lfu_tags_increase_witness :
  1 ≤ frames (init 2 [1; 2; 1; 3]) ∧
  ∃ cache' frequency' self',
    for_each lfu_step [1; 2; 1; 3] ([], ∅) (fresh (init 2 [1; 2; 1; 3]))
    = (Ok (cache', frequency'), self') ∧
    lfu_tags_ok cache' self'.
Proof.
  split; [simpl; lia|].
  destruct (lfu_tags_increase [1; 2; 1; 3] (init 2 [1; 2; 1; 3]))
    as (cache' & frequency' & self' & Hloop & Hok & _); [simpl; lia|].
  exists cache', frequency', self'. split; [exact Hloop|exact Hok].
Defined.

(** ** The report of a run *)

Lemma display_results_report algorithm_name w :
  reference_string (simulator w) ≠ [] →
  display_results algorithm_name w =
  (Ok tt,
   mkProcess (simulator w)
     (stdout w ++ report algorithm_name (simulator w)) (entered w)).
Proof.
  intros Hrefs. unfold display_results, report, report_head, percentage.
  cbv [mbind SE_bind bind get_simulator print]. rewrite print_entries.
  cbn [simulator stdout entered]. unfold true_div.
  rewrite bool_decide_eq_false_2
    by (by destruct (reference_string (simulator w))).
  cbv [ret]. cbn [simulator stdout entered]. by rewrite <- !app_assoc.
Qed.





(** ** The whole program *)

Lemma bind_Ok {St A B} (m : SE St A) (k : A → SE St B) st a st' :
  m st = (Ok a, st') → bind m k st = k a st'.
Proof. intros Hm. unfold bind. by rewrite Hm. Qed.

Section WholeProgram.
Context {T : Type} `{PySet T}.

Lemma call_returns (p : Policy) (w : Process) :
  1 ≤ frames (simulator w) →
  call (T := T) p w =
  (Ok tt, mkProcess (run_policy (T := T) p (simulator w)).2 (stdout w)
            (entered w ++ [(p, frames (simulator w))])).
Proof.
  intros Hfr. unfold call.
  destruct (run_policy_trace (T := T) p (simulator w) Hfr)
    as (? & self' & -> & _). done.
Qed.

Lemma main_report (fr : Z) (refs : list Z) :
  1 ≤ fr → refs ≠ [] →
  main (T := T) fr refs =
  (Ok tt,
   mkProcess
     (run_policy (T := T) Optimal (init fr refs)).2
     ([Banner]
      ++ report "FIFO" (run_policy (T := T) FIFO (init fr refs)).2
      ++ report "LRU" (run_policy (T := T) LRU (init fr refs)).2
      ++ report "LFU" (run_policy (T := T) LFU (init fr refs)).2
      ++ report "Optimal" (run_policy (T := T) Optimal (init fr refs)).2)
     [(FIFO, fr); (LRU, fr); (LFU, fr); (Optimal, fr)]).
Proof.
  intros Hfr Hrefs. unfold main. cbv [mbind SE_bind].
  set (self0 := init fr refs).
  assert (Hkeep : ∀ p,
    1 ≤ frames (run_policy (T := T) p self0).2 ∧
    reference_string (run_policy (T := T) p self0).2 ≠ []).
  { intros p. destruct (run_policy_keeps_input (T := T) p self0) as [-> ->].
    by split. }
  assert (Hfr0 : 1 ≤ frames self0) by done.
  erewrite bind_Ok by (by apply call_returns).
  cbn [simulator stdout entered app].
  erewrite bind_Ok by (apply display_results_report; apply Hkeep).
  cbn [simulator stdout entered].
  erewrite bind_Ok by (apply call_returns; apply Hkeep).
  cbn [simulator stdout entered app]. rewrite (run_policy_after FIFO LRU).
  erewrite bind_Ok by (apply display_results_report; apply Hkeep).
  cbn [simulator stdout entered].
  erewrite bind_Ok by (apply call_returns; apply Hkeep).
  cbn [simulator stdout entered app]. rewrite (run_policy_after LRU LFU).
  erewrite bind_Ok by (apply display_results_report; apply Hkeep).
  cbn [simulator stdout entered].
  erewrite bind_Ok by (apply call_returns; apply Hkeep).
  cbn [simulator stdout entered app]. rewrite (run_policy_after LFU Optimal).
  rewrite display_results_report by apply Hkeep.
  cbn [simulator stdout entered].
  cbn [app]. rewrite <- !app_assoc.
  destruct (run_policy_keeps_input (T := T) FIFO self0) as [-> _].
  destruct (run_policy_keeps_input (T := T) LRU self0) as [-> _].
  destruct (run_policy_keeps_input (T := T) LFU self0) as [-> _].
  done.
Qed.
End WholeProgram.

(** X15. With at least one frame and at least one reference, [main] runs
    to the end: it calls the four policies in the order FIFO, LRU, LFU,
    Optimal, each on the frame count given, and what it prints after the
    banner is, policy by policy, the report of that policy run on a fresh
    simulator. The object is left as Optimal leaves it. *)
Theorem main_runs_all_policies {T : Type} `{PySet T} (fr : Z) (refs : list Z) :
  1 ≤ fr → refs ≠ [] →
  ∃ w,
    main (T := T) fr refs = (Ok tt, w) ∧
    entered w = [(FIFO, fr); (LRU, fr); (LFU, fr); (Optimal, fr)] ∧
    stdout w =
      [Banner]
      ++ report "FIFO" (run_policy (T := T) FIFO (init fr refs)).2
      ++ report "LRU" (run_policy (T := T) LRU (init fr refs)).2
      ++ report "LFU" (run_policy (T := T) LFU (init fr refs)).2
      ++ report "Optimal" (run_policy (T := T) Optimal (init fr refs)).2 ∧
    simulator w = (run_policy (T := T) Optimal (init fr refs)).2.
Proof.
  intros Hfr Hrefs. eexists. split; [by apply main_report|].
  cbn [entered stdout simulator]. by repeat split.
Qed.

Lemma main_runs_all_policies_witness :
  1 ≤ 2 ∧ [1; 2; 3] ≠ [] ∧
  ∃ w,
    main (T := list Z) 2 [1; 2; 3] = (Ok tt, w) ∧
    entered w = [(FIFO, 2); (LRU, 2); (LFU, 2); (Optimal, 2)].
Proof.
  split; [lia|]. split; [discriminate|].
  destruct (main_runs_all_policies (T := list Z) 2 [1; 2; 3])
    as (w & Hmain & Hentered & _); [lia|discriminate|].
  exists w. split; [exact Hmain|exact Hentered].
Defined.

(** X16. [main] returns exactly when there is at least one frame and at
    least one reference; in every other case it ends with an exception. *)
Theorem main_returns_iff {T : Type} `{PySet T} (fr : Z) (refs : list Z) :
  (∃ w, main (T := T) fr refs = (Ok tt, w)) ↔ (1 ≤ fr ∧ refs ≠ []).
Proof.
  split.
  - intros [w Hmain]. destruct refs as [|page rest].
    + by rewrite main_no_references in Hmain.
    + split; [|done]. destruct (decide (1 ≤ fr)) as [|Hfr]; [done|].
      rewrite main_no_frames in Hmain by lia. done.
  - intros [Hfr Hrefs]. eexists. by apply main_report.
Qed.

(** ** Optimal is optimal *)

Lemma size_add (x : Z) (X : gset Z) : x ∉ X → size ({[x]} ∪ X) = S (size X).
Proof.
  intros Hx. rewrite size_union, size_singleton; [done|].
  by apply disjoint_singleton_l.
Qed.

Lemma size_remove (x : Z) (X : gset Z) : x ∈ X → S (size (X ∖ {[x]})) = size X.
Proof.
  intros Hx. rewrite <- (size_add x) by set_solver. f_equal.
  apply set_eq. intros y. destruct (decide (y = x)); set_solver.
Qed.

Lemma used_no_later_tail w v page refs :
  page ≠ w → page ≠ v →
  used_no_later w v (page :: refs) → used_no_later w v refs.
Proof.
  intros Hw Hv Hnl n Hn. unfold used_no_later in Hnl. simpl in Hnl.
  rewrite !bool_decide_eq_false_2 in Hnl by done.
  destruct (Hnl (S n)) as (m & Hm & Hle); [by rewrite Hn|].
  destruct (index w refs) as [m'|]; [|done]. simpl in Hm. injection Hm as <-.
  exists m'. split; [done|lia].
Qed.

Lemma used_no_later_head w v refs :
  w ≠ v → ¬ used_no_later w v (v :: refs).
Proof.
  intros Hne Hnl. destruct (Hnl 0%nat) as (m & Hm & Hle).
  { simpl. by rewrite bool_decide_eq_true_2. }
  simpl in Hm. rewrite bool_decide_eq_false_2 in Hm by done.
  destruct (index w refs); simpl in Hm; [|done]. injection Hm as <-. lia.
Qed.

Section Exchange.
Variable fr : Z.

(** Three ways in which the resident set [S] of one schedule can differ from
    the resident set [T] of another, and what it costs to serve the same
    references from [S] instead of [T]. *)
Lemma paging_exchange (refs : list Z) :
  (∀ (S T : gset Z) w f,
     w ∉ T → S = {[w]} ∪ T → Z.of_nat (size S) ≤ fr →
     paging fr T refs f → ∃ f', paging fr S refs f' ∧ (f' ≤ f)%nat) ∧
  (∀ (S T : gset Z) v f,
     v ∈ T → S = T ∖ {[v]} → Z.of_nat (size T) ≤ fr →
     paging fr T refs f → ∃ f', paging fr S refs f' ∧ (f' ≤ f + 1)%nat) ∧
  (∀ (C : gset Z) w v f,
     w ∉ C → v ∉ C → w ≠ v →
     paging fr ({[v]} ∪ C) refs f →
     ∃ f', paging fr ({[w]} ∪ C) refs f' ∧ (f' ≤ f + 1)%nat ∧
           (used_no_later w v refs → (f' ≤ f)%nat)).
Proof.
  induction refs as [|page rest (IHsup & IHsub & IHswap)].
  { repeat split.
    - intros S T w f _ _ _ Hpg. inversion Hpg; subst. exists 0%nat. split; [constructor|lia].
    - intros S T v f _ _ _ Hpg. inversion Hpg; subst. exists 0%nat. split; [constructor|lia].
    - intros C w v f _ _ _ Hpg. inversion Hpg; subst. exists 0%nat.
      split; [constructor|]. split; [lia|]. intros _. lia. }
  split; [|split].
  - (* one page more *)
    intros S T w f Hw -> Hsize Hpg. rewrite size_add in Hsize by done.
    inversion Hpg as [|? ? ? ? Hin Hrest|? ? ? f0 Hin Hfree Hrest
                      |? ? y ? f0 Hin Hfull Hy Hrest]; subst.
    + destruct (IHsup ({[w]} ∪ T) T w f) as (f' & Hpg' & Hle);
        [done|done|by rewrite size_add by done|done|].
      exists f'. split; [|done]. apply paging_hit; [set_solver|done].
    + destruct (decide (page = w)) as [->|Hne].
      * exists f0. split; [|lia]. apply paging_hit; [set_solver|done].
      * assert (Hnew : page ∉ {[w]} ∪ T) by set_solver.
        destruct (decide (Z.of_nat (size ({[w]} ∪ T)) < fr)) as [Hroom|Hnoroom].
        -- destruct (IHsup ({[w]} ∪ ({[page]} ∪ T)) ({[page]} ∪ T) w f0)
             as (f' & Hpg' & Hle); [set_solver|done| |done|].
           { rewrite size_add in Hroom by done.
             rewrite !size_add by set_solver. lia. }
           exists (S f'). split; [|lia]. apply paging_fill; [done..|].
           by replace ({[page]} ∪ ({[w]} ∪ T)) with ({[w]} ∪ ({[page]} ∪ T))
             by set_solver.
        -- exists (S f0). split; [|lia].
           apply (paging_evict _ _ _ w); [done|lia|set_solver|].
           by replace ({[page]} ∪ ({[w]} ∪ T) ∖ {[w]}) with ({[page]} ∪ T)
             by set_solver.
    + lia.
  - (* one page less *)
    intros S T v f Hv -> Hsize Hpg.
    pose proof (size_remove v T Hv) as Hless.
    inversion Hpg as [|? ? ? ? Hin Hrest|? ? ? f0 Hin Hfree Hrest
                      |? ? y ? f0 Hin Hfull Hy Hrest]; subst.
    + destruct (decide (page = v)) as [->|Hne].
      * exists (S f). split; [|lia]. apply paging_fill; [set_solver|lia|].
        replace ({[v]} ∪ T ∖ {[v]}) with T; [done|].
        apply set_eq. intros x. destruct (decide (x = v)); set_solver.
      * destruct (IHsub (T ∖ {[v]}) T v f) as (f' & Hpg' & Hle); [done..|].
        exists f'. split; [|done]. apply paging_hit; [set_solver|done].
    + destruct (IHsub (({[page]} ∪ T) ∖ {[v]}) ({[page]} ∪ T) v f0)
        as (f' & Hpg' & Hle); [set_solver|done| |done|].
      { rewrite size_add by done. lia. }
      exists (S f'). split; [|lia]. apply paging_fill; [set_solver|lia|].
      by replace ({[page]} ∪ T ∖ {[v]}) with (({[page]} ∪ T) ∖ {[v]})
        by set_solver.
    + destruct (decide (y = v)) as [->|Hne].
      * exists (S f0). split; [|lia]. by apply paging_fill; [set_solver|lia|].
      * destruct (IHswap ({[page]} ∪ T ∖ {[v]} ∖ {[y]}) y v f0)
          as (f' & Hpg' & Hle & _); [set_solver..| |].
        { replace ({[v]} ∪ ({[page]} ∪ T ∖ {[v]} ∖ {[y]}))
            with ({[page]} ∪ T ∖ {[y]}); [done|].
          apply set_eq. intros x. destruct (decide (x = v)); set_solver. }
        exists (S f'). split; [|lia]. apply paging_fill; [set_solver|lia|].
        replace ({[page]} ∪ T ∖ {[v]})
          with ({[y]} ∪ ({[page]} ∪ T ∖ {[v]} ∖ {[y]})); [done|].
        apply set_eq. intros x. destruct (decide (x = y)); set_solver.
  - (* one page for another *)
    intros C w v f Hw Hv Hne Hpg.
    assert (HsizeS : size ({[w]} ∪ C) = S (size C)) by (by apply size_add).
    assert (HsizeT : size ({[v]} ∪ C) = S (size C)) by (by apply size_add).
    inversion Hpg as [|? ? ? ? Hin Hrest|? ? ? f0 Hin Hfree Hrest
                      |? ? y ? f0 Hin Hfull Hy Hrest]; subst.
    + destruct (decide (page = v)) as [->|Hpv].
      * assert (Hnew : v ∉ {[w]} ∪ C) by set_solver.
        assert (∃ f', paging fr ({[w]} ∪ C) (v :: rest) f' ∧ (f' ≤ f + 1)%nat)
          as (f' & Hpg' & Hle).
        { destruct (decide (Z.of_nat (size ({[w]} ∪ C)) < fr)) as [Hroom|Hnoroom].
          - destruct (IHsup ({[w]} ∪ ({[v]} ∪ C)) ({[v]} ∪ C) w f)
              as (f' & Hpg' & Hle); [set_solver|done| |done|].
            { rewrite size_add by set_solver. lia. }
            exists (S f'). split; [|lia]. apply paging_fill; [done..|].
            by replace ({[v]} ∪ ({[w]} ∪ C)) with ({[w]} ∪ ({[v]} ∪ C))
              by set_solver.
          - exists (S f). split; [|lia].
            apply (paging_evict _ _ _ w); [done|lia|set_solver|].
            by replace ({[v]} ∪ ({[w]} ∪ C) ∖ {[w]}) with ({[v]} ∪ C)
              by set_solver. }
        exists f'. split; [done|]. split; [done|].
        intros Hnl. by apply used_no_later_head in Hnl.
      * assert (HpC : page ∈ C) by set_solver.
        destruct (IHswap C w v f) as (f' & Hpg' & Hle & Hnl); [done..|].
        exists f'. split; [apply paging_hit; [set_solver|done]|].
        split; [done|]. intros Hnl'. apply Hnl.
        apply (used_no_later_tail _ _ page); [set_solver..|done].
    + destruct (decide (page = w)) as [->|Hpw].
      * destruct (IHsub ({[w]} ∪ C) ({[w]} ∪ ({[v]} ∪ C)) v f0)
          as (f' & Hpg' & Hle); [set_solver|set_solver| |done|].
        { rewrite size_add by set_solver. lia. }
        exists f'. split; [apply paging_hit; [set_solver|done]|].
        split; [lia|]. intros _. lia.
      * destruct (IHswap ({[page]} ∪ C) w v f0) as (f' & Hpg' & Hle & Hnl);
          [set_solver..| |].
        { by replace ({[v]} ∪ ({[page]} ∪ C)) with ({[page]} ∪ ({[v]} ∪ C))
            by set_solver. }
        exists (S f'). split; [|split; [lia|]].
        -- apply paging_fill; [set_solver|lia|].
           by replace ({[page]} ∪ ({[w]} ∪ C)) with ({[w]} ∪ ({[page]} ∪ C))
             by set_solver.
        -- intros Hnl'. apply le_n_S, Hnl.
           apply (used_no_later_tail _ _ page); [done|set_solver|done].
    + destruct (decide (page = w)) as [->|Hpw].
      * destruct (decide (y = v)) as [->|Hyv].
        -- exists f0. split; [|split; [lia|intros _; lia]].
           apply paging_hit; [set_solver|].
           by replace ({[w]} ∪ C) with ({[w]} ∪ ({[v]} ∪ C) ∖ {[v]}) by set_solver.
        -- assert (HyC : y ∈ C) by set_solver.
           destruct (IHswap ({[w]} ∪ C ∖ {[y]}) y v f0)
             as (f' & Hpg' & Hle & _); [set_solver..| |].
           { replace ({[v]} ∪ ({[w]} ∪ C ∖ {[y]}))
               with ({[w]} ∪ ({[v]} ∪ C) ∖ {[y]}); [done|]. set_solver. }
           exists f'. split; [|split; [lia|intros _; lia]].
           apply paging_hit; [set_solver|].
           replace ({[w]} ∪ C) with ({[y]} ∪ ({[w]} ∪ C ∖ {[y]})); [done|].
           apply set_eq. intros x. destruct (decide (x = y)); set_solver.
      * assert (Hnew : page ∉ {[w]} ∪ C) by set_solver.
        destruct (decide (y = v)) as [->|Hyv].
        -- exists (S f0). split; [|split; [lia|intros _; lia]].
           apply (paging_evict _ _ _ w); [done|lia|set_solver|].
           by replace ({[page]} ∪ ({[w]} ∪ C) ∖ {[w]})
             with ({[page]} ∪ ({[v]} ∪ C) ∖ {[v]}) by set_solver.
        -- assert (HyC : y ∈ C) by set_solver.
           destruct (IHswap ({[page]} ∪ C ∖ {[y]}) w v f0)
             as (f' & Hpg' & Hle & Hnl); [set_solver..| |].
           { replace ({[v]} ∪ ({[page]} ∪ C ∖ {[y]}))
               with ({[page]} ∪ ({[v]} ∪ C) ∖ {[y]}); [done|]. set_solver. }
           exists (S f'). split; [|split; [lia|]].
           ++ apply (paging_evict _ _ _ y); [done|lia|set_solver|].
              replace ({[page]} ∪ ({[w]} ∪ C) ∖ {[y]})
                with ({[w]} ∪ ({[page]} ∪ C ∖ {[y]})); [done|]. set_solver.
           ++ intros Hnl'. apply le_n_S, Hnl.
              apply (used_no_later_tail _ _ page); [done|set_solver|done].
Qed.
End Exchange.

Lemma list_to_set_perm_eq (l k : list Z) :
  l ≡ₚ k → (list_to_set l : gset Z) = list_to_set k.
Proof. intros Hp. apply set_eq. intros x. by rewrite !elem_of_list_to_set, Hp. Qed.

Lemma trace_paging pages res self res' self' :
  trace pages res self res' self' → NoDup res →
  ∃ f, paging (frames self) (list_to_set res) pages f ∧
       page_faults self' = (page_faults self + f)%nat.
Proof.
  induction 1 as [|page pages res self res1 self1 res2 self2 Htr _ IH];
    intros Hnd.
  - exists 0%nat. split; [constructor|lia].
  - destruct (IH (transition_NoDup _ _ _ _ _ Htr Hnd)) as (f & Hpg & Hcount).
    rewrite (transition_frames _ _ _ _ _ Htr) in Hpg.
    pose proof (size_list_to_set (C := gset Z) res Hnd) as Hsize.
    destruct Htr as [Hin Hp|Hin Hlt Hp|victim rest Hin Hge Hres Hp];
      cbn [page_faults after_hit after_fault] in Hcount.
    + exists f. split; [|lia]. apply paging_hit; [by apply elem_of_list_to_set|].
      by rewrite <- (list_to_set_perm_eq _ _ Hp).
    + exists (S f). split; [|lia].
      apply paging_fill; [by rewrite elem_of_list_to_set|lia|].
      by rewrite (list_to_set_perm_eq _ _ Hp) in Hpg.
    + exists (S f). split; [|lia].
      apply (paging_evict _ _ _ victim);
        [by rewrite elem_of_list_to_set|lia| |].
      * apply elem_of_list_to_set. rewrite Hres. by apply elem_of_cons; left.
      * rewrite (list_to_set_perm_eq _ _ Hp) in Hpg.
        rewrite (list_to_set_perm_eq _ _ Hres).
        rewrite Hres in Hnd. apply NoDup_cons in Hnd as [Hv _].
        replace ({[page]} ∪ list_to_set (victim :: rest) ∖ {[victim]})
          with (list_to_set (page :: rest) : gset Z); [done|].
        apply set_eq. intros x. rewrite elem_of_union, elem_of_difference,
          !elem_of_list_to_set, !elem_of_cons, !elem_of_singleton.
        destruct (decide (x = victim)) as [->|]; naive_solver.
Qed.

(** Belady's rule is at least as good as any demand-paging schedule. *)
Lemma belady_faults_least fr refs :
  ∀ res f n,
    NoDup res → paging fr (list_to_set res) refs f →
    n ∈ belady_faults fr res refs → (n ≤ f)%nat.
Proof.
  induction refs as [|page rest IH]; intros res f n Hnd Hpg Hn.
  - apply list_elem_of_singleton in Hn as ->. lia.
  - pose proof (size_list_to_set (C := gset Z) res Hnd) as Hsize.
    cbn [belady_faults] in Hn.
    destruct (contains page res) eqn:Hin.
    + apply contains_true in Hin.
      inversion Hpg as [|? ? ? ? Hin' Hrest|? ? ? f0 Hin' Hfree Hrest
                        |? ? u ? f0 Hin' Hfull Hu Hrest]; subst;
        try (exfalso; apply Hin'; by apply elem_of_list_to_set).
      by apply (IH res).
    + apply contains_false in Hin.
      assert (Hnd' : ∀ l, NoDup l → page ∉ l → NoDup (l ++ [page])).
      { intros l Hl Hpl. apply NoDup_app. split; [done|].
        split; [|apply NoDup_singleton]. by intros x Hx ->%list_elem_of_singleton. }
      assert (Hset : ∀ l, (list_to_set (l ++ [page]) : gset Z)
                          = {[page]} ∪ list_to_set l).
      { intros l. rewrite list_to_set_app_L. simpl. set_solver. }
      destruct (is_full res fr) eqn:Hfl.
      * apply is_full_true in Hfl.
        apply list_elem_of_bind in Hn as (v & Hn & Hv).
        apply list_elem_of_fmap in Hn as (n' & -> & Hn').
        apply list_elem_of_filter in Hv as [Hfar Hv].
        inversion Hpg as [|? ? ? ? Hin' Hrest|? ? ? f0 Hin' Hfree Hrest
                          |? ? u ? f0 Hin' Hfull Hu Hrest]; subst;
          [by apply elem_of_list_to_set in Hin'|lia|].
        apply le_n_S.
        assert (Hndv : NoDup (filter (λ q, q ≠ v) res ++ [page])).
        { apply Hnd'; [by apply NoDup_filter|]. by intros [_ ?]%list_elem_of_filter. }
        assert (Hsetv : (list_to_set (filter (λ q, q ≠ v) res ++ [page]) : gset Z)
                        = {[page]} ∪ list_to_set res ∖ {[v]}).
        { rewrite Hset. f_equal. apply set_eq. intros x.
          rewrite elem_of_difference, !elem_of_list_to_set, list_elem_of_filter,
            elem_of_singleton. naive_solver. }
        apply elem_of_list_to_set in Hu.
        destruct (decide (u = v)) as [->|Huv].
        -- apply (IH _ _ _ Hndv); [by rewrite Hsetv|done].
        -- destruct (paging_exchange fr rest) as (_ & _ & Hswap).
           destruct (Hswap ({[page]} ∪ list_to_set res ∖ {[u]} ∖ {[v]}) u v f0)
             as (f' & Hpg' & _ & Hle).
           ++ rewrite elem_of_union, elem_of_singleton. set_solver.
           ++ set_solver.
           ++ done.
           ++ replace ({[v]} ∪ ({[page]} ∪ list_to_set res ∖ {[u]} ∖ {[v]}))
                with ({[page]} ∪ (list_to_set res : gset Z) ∖ {[u]}); [done|].
              apply set_eq. intros x. destruct (decide (x = v)) as [->|]; [|set_solver].
              rewrite !elem_of_union, !elem_of_difference, elem_of_list_to_set,
                !elem_of_singleton. naive_solver.
           ++ apply Nat.le_trans with f'.
              ** apply (IH _ _ _ Hndv); [|done]. rewrite Hsetv.
                 replace ({[page]} ∪ list_to_set res ∖ {[v]})
                   with ({[u]} ∪ ({[page]} ∪ (list_to_set res : gset Z)
                                   ∖ {[u]} ∖ {[v]})); [done|].
                 apply set_eq. intros x. destruct (decide (x = u)) as [->|]; [|set_solver].
                 rewrite !elem_of_union, !elem_of_difference, elem_of_list_to_set,
                   !elem_of_singleton. naive_solver.
              ** apply Hle. apply distance_gt_no_later.
                 rewrite forallb_forall in Hfar.
                 specialize (Hfar u (proj1 (list_elem_of_In _ _) Hu)).
                 by apply negb_true_iff in Hfar.
      * apply is_full_false in Hfl.
        apply list_elem_of_fmap in Hn as (n' & -> & Hn').
        inversion Hpg as [|? ? ? ? Hin' Hrest|? ? ? f0 Hin' Hfree Hrest
                          |? ? u ? f0 Hin' Hfull Hu Hrest]; subst;
          [by apply elem_of_list_to_set in Hin'| |lia].
        apply le_n_S, (IH (res ++ [page])); [by apply Hnd'|by rewrite Hset|done].
Qed.

(** X17. Optimal is optimal: with at least one frame, whatever the
    iteration order of its set, [optimal] counts no more faults than [fifo],
    [lru] or [lfu] (or [optimal] with another iteration order) on the same
    frame count and reference sequence. *)
Theorem optimal_faults_least {T U : Type} `{PySet T} `{PySet U}
    (p : Policy) (self : Simulator) :
  1 ≤ frames self →
  ∃ self_opt self_p,
    optimal (T := T) self = (Ok tt, self_opt) ∧
    run_policy (T := U) p self = (Ok tt, self_p) ∧
    (page_faults self_opt ≤ page_faults self_p)%nat.
Proof.
  intros Hfr.
  destruct (optimal_belady (T := T) self Hfr) as (self_opt & Hopt & Hn).
  destruct (run_policy_trace (T := U) p self Hfr) as (res' & self_p & Hrun & Htr).
  exists self_opt, self_p. split; [done|]. split; [done|].
  destruct (trace_paging _ _ _ _ _ Htr) as (f & Hpg & Hcount); [constructor|].
  simpl in Hpg, Hcount. rewrite Hcount.
  by apply (belady_faults_least (frames self) (reference_string self) []);
    [constructor|..].
Qed.

Lemma optimal_faults_least_witness :
  1 ≤ frames (init 3 [1; 2; 3; 4; 1; 2; 5; 1; 2; 3; 4; 5]) ∧
  ∃ self_opt self_p,
    optimal (T := list Z) (init 3 [1; 2; 3; 4; 1; 2; 5; 1; 2; 3; 4; 5])
    = (Ok tt, self_opt) ∧
    run_policy (T := list Z) FIFO (init 3 [1; 2; 3; 4; 1; 2; 5; 1; 2; 3; 4; 5])
    = (Ok tt, self_p) ∧
    Nat.le (page_faults self_opt) (page_faults self_p).
Proof.
  split; [simpl; lia|].
  apply (optimal_faults_least (T := list Z) (U := list Z) FIFO
           (init 3 [1; 2; 3; 4; 1; 2; 5; 1; 2; 3; 4; 5])).
  simpl; lia.
Defined.

(** X18. The fault count of [optimal] is the least possible: it is the
    count of a schedule that loads a page only on a fault and evicts only
    when no frame is free, and no such schedule, however it chooses the
    pages to evict, serves the reference sequence from empty memory with
    fewer faults. *)
Theorem optimal_is_minimum {T : Type} `{PySet T} (self : Simulator) :
  1 ≤ frames self →
  ∃ self_opt,
    optimal (T := T) self = (Ok tt, self_opt) ∧
    paging (frames self) ∅ (reference_string self) (page_faults self_opt) ∧
    ∀ f, paging (frames self) ∅ (reference_string self) f →
         (page_faults self_opt ≤ f)%nat.
Proof.
  intros Hfr.
  destruct (optimal_belady (T := T) self Hfr) as (self_opt & Hopt & Hn).
  exists self_opt. split; [done|]. split.
  - destruct (run_policy_trace (T := T) Optimal self Hfr)
      as (res' & self' & Hrun & Htr).
    cbn [run_policy] in Hrun. rewrite Hopt in Hrun. injection Hrun as <-.
    destruct (trace_paging _ _ _ _ _ Htr) as (f & Hpg & Hcount); [constructor|].
    simpl in Hpg, Hcount. by rewrite Hcount.
  - intros f Hpg.
    by apply (belady_faults_least (frames self) (reference_string self) []);
      [constructor|..].
Qed.

Lemma optimal_is_minimum_witness :
  1 ≤ frames (init 2 [1; 2; 3; 1]) ∧
  ∃ self_opt,
    optimal (T := list Z) (init 2 [1; 2; 3; 1]) = (Ok tt, self_opt) ∧
    paging 2 ∅ [1; 2; 3; 1] (page_faults self_opt) ∧
    ∀ f, paging 2 ∅ [1; 2; 3; 1] f → Nat.le (page_faults self_opt) f.
Proof.
  split; [simpl; lia|].
  apply (optimal_is_minimum (T := list Z) (init 2 [1; 2; 3; 1])).
  simpl; lia.
Defined.

(** ** One frame, counted *)

(** X19. With exactly one frame, each policy counts as faults the first
    reference and every reference that differs from the one just before
    it. *)
Theorem single_frame_fault_count {T : Type} `{PySet T} (p : Policy)
    (self : Simulator) :
  frames self = 1 →
  ∃ self',
    run_policy (T := T) p self = (Ok tt, self') ∧
    page_faults self' = single_frame_faults None (reference_string self).
Proof.
  intros Hfr. assert (Hfr1 : 1 ≤ frames self) by lia.
  destruct (run_policy_trace (T := T) p self Hfr1) as (res' & self' & Hrun & Htr).
  exists self'. split; [done|].
  by rewrite (trace_single_frame _ _ _ _ _ Htr); simpl; try lia.
Qed.

Lemma single_frame_fault_count_witness :
  frames (init 1 [1; 1; 2; 1; 3; 3]) = 1 ∧
  ∃ self',
    run_policy (T := list Z) FIFO (init 1 [1; 1; 2; 1; 3; 3]) = (Ok tt, self') ∧
    page_faults self' = 4%nat.
Proof.
  split; [reflexivity|].
  apply (single_frame_fault_count (T := list Z) FIFO (init 1 [1; 1; 2; 1; 3; 3])).
  reflexivity.
Defined.
